(** * goleveldb: the DB handle (leveldb/db.go) and its option setter

    A shallow embedding of the public entry points of the DB handle:
    [Open], [Recover], journal replay at open, [Get], [GetProperty],
    [GetApproximateSizes], [CompactRange], [Close], and of the option
    setter [iOptions.SetMaxOpenFiles].

    Go values are modelled as follows.
    - [uint64], [uint32], [int] are [Z]; where the code does arithmetic on
      them the wrap-around is written out ([u64]).
    - [[]byte] is [list byte]; the nil slice and the empty slice are both [[]].
    - A Go [error] is [option error]; [None] is [nil].
    - A function that can return an error, or panic, returns an [outcome].
    - Channels are modelled by what a sequential caller can observe of them:
      whether they are closed, and the value they currently offer. *)

From Stdlib Require Import ZArith Lia Strings.Byte Strings.String Strings.Ascii.
From stdpp Require Import base list strings option pretty sorting.

Open Scope Z_scope.

(** ** Bytes, machine integers, errors *)

Abbreviation bytes := (list byte).

#[global] Instance byte_eq_dec : EqDecision byte := Byte.byte_eq_dec.

Definition B (s : string) : bytes := String.list_byte_of_string s.

Definition Z_of_byte (b : byte) : Z := Z.of_N (Byte.to_N b).

Definition byte_of_Z (z : Z) : byte :=
  default "000"%byte (Byte.of_N (Z.to_N (z mod 256))).

Definition u64 (z : Z) : Z := z mod 2 ^ 64.
Definition u32 (z : Z) : Z := z mod 2 ^ 32.

(** [binary.LittleEndian.PutUint64] and friends, on [n] bytes. *)
Fixpoint le_put (n : nat) (z : Z) : bytes :=
  match n with
  | O => []
  | S n' => byte_of_Z z :: le_put n' (z ≫ 8)
  end.

Fixpoint le_get (bs : bytes) : Z :=
  match bs with
  | [] => 0
  | b :: bs' => Z.lor (Z_of_byte b) (le_get bs' ≪ 8)
  end.

(** The errors of the package ([var] block of db.go), of the packages it
    imports, and the errors of the collaborators, which the DB handle only
    passes on. *)
Inductive error :=
| ErrNotFound
| ErrSnapshotReleased
| ErrIterReleased
| ErrClosed
| os_ErrExist
| os_ErrNotExist
| io_EOF
| io_ErrUnexpectedEOF
| opt_ErrNotAllowed
| opt_ErrInvalid
| errors_New (msg : string)
| ErrStorage (code : Z)
| ErrCorrupted (what : string).

#[global] Instance error_eq_dec : EqDecision error.
Proof. solve_decision. Defined.

Definition os_IsNotExist (err : option error) : bool :=
  bool_decide (err = Some os_ErrNotExist).

(** What a call can do: return normally, return an error, or panic. *)
Inductive outcome (A : Type) :=
| Ok (a : A)
| Err (e : error)
| Panic (msg : string).
Arguments Ok {A} a.
Arguments Err {A} e.
Arguments Panic {A} msg.

#[global] Instance outcome_bind : MBind outcome := fun A C k m =>
  match m with
  | Ok a => k a
  | Err e => Err e
  | Panic msg => Panic msg
  end.

#[global] Instance outcome_ret : MRet outcome := fun A a => Ok a.

(** An operation that only reports an error ([func ...() error]). *)
Definition try (err : option error) : outcome unit :=
  match err with
  | None => Ok tt
  | Some e => Err e
  end.

(** ** Internal keys (key.go) *)

Module ikey.

(** Modelled from the spec: key.go is not part of the sources at hand.
    "Internal key encodes user_key || seq:56 || kind:8"; "parse(ikey) →
    (user_key, seq, kind)?"; kinds are [Value] and [Deletion], and probes
    use kind [Seek] with [MaxSeq]. *)
Inductive vType := tDel | tVal.

#[global] Instance vType_eq_dec : EqDecision vType.
Proof. solve_decision. Defined.

Definition tSeek : vType := tVal.

Definition vType_code (t : vType) : Z :=
  match t with tDel => 0 | tVal => 1 end.

Definition kMaxSeq : Z := 2 ^ 56 - 1.

Definition packNum (seq : Z) (t : vType) : Z :=
  u64 (Z.lor (seq ≪ 8) (vType_code t)).

Definition newIKey (ukey : bytes) (seq : Z) (t : vType) : bytes :=
  ukey ++ le_put 8 (packNum seq t).

(** The trailing eight bytes, as a number. *)
Definition num (p : bytes) : Z :=
  le_get (drop (length p - 8)%nat p).

Definition ukey (p : bytes) : bytes :=
  take (length p - 8)%nat p.

(** [(iKey).parseNum]: sequence and kind; not ok on a key shorter than
    eight bytes or of an unknown kind. *)
Definition parseNum (p : bytes) : option (Z * vType) :=
  if (length p <? 8)%nat then None
  else
    let n := num p in
    match Z.land n 255 with
    | 0 => Some (n ≫ 8, tDel)
    | 1 => Some (n ≫ 8, tVal)
    | _ => None
    end.

Definition parseIkey (p : bytes) : option (bytes * Z * vType) :=
  match parseNum p with
  | Some (seq, t) => Some (ukey p, seq, t)
  | None => None
  end.

End ikey.
Export ikey.

(** ** Comparers (package comparer) *)

(** The user comparator is an interface of the code; [Compare] returns a
    negative number, zero or a positive number. *)
Class Comparer := { Compare : bytes -> bytes -> Z }.

Fixpoint bytes_compare (a b : bytes) : Z :=
  match a, b with
  | [], [] => 0
  | [], _ :: _ => -1
  | _ :: _, [] => 1
  | x :: a', y :: b' =>
      if Z_of_byte x <? Z_of_byte y then -1
      else if Z_of_byte y <? Z_of_byte x then 1
      else bytes_compare a' b'
  end.

(** The default comparator: lexicographic on bytes. *)
Definition BytewiseComparer : Comparer := {| Compare := bytes_compare |}.

(** Modelled from the spec: the internal comparator (key.go) "orders by user
    comparator over user_key ascending, then by seq descending, then kind
    descending", that is by the packed number descending. *)
Definition iCompare `{Comparer} (a b : bytes) : Z :=
  let x := Compare (ukey a) (ukey b) in
  if x =? 0 then
    if num b <? num a then -1
    else if num a <? num b then 1
    else 0
  else x.

(** ** The memtable (package memdb) *)

Module memdb.

(** Modelled from the spec: package memdb is not part of the sources at
    hand. "A sorted associative structure supporting insert(ikey, value),
    find_ge(ikey) → (ikey, value)?"; "Size is the sum of encoded key and value
    lengths". The entries are kept in the order of the comparator. *)
Definition DB := list (bytes * bytes).

Definition New : DB := [].

Section WithComparer.
Context `{Comparer}.

Fixpoint Put (key value : bytes) (m : DB) : DB :=
  match m with
  | [] => [(key, value)]
  | (k, v) :: m' =>
      let c := iCompare k key in
      if c <? 0 then (k, v) :: Put key value m'
      else if c =? 0 then (key, value) :: m'
      else (key, value) :: (k, v) :: m'
  end.

(** [Find]: the first entry whose key is greater than or equal to [key];
    [ErrNotFound] when there is none. *)
Fixpoint Find (key : bytes) (m : DB) : bytes * bytes * option error :=
  match m with
  | [] => ([], [], Some ErrNotFound)
  | (k, v) :: m' =>
      if 0 <=? iCompare k key then (k, v, None) else Find key m'
  end.

End WithComparer.

Definition Len (m : DB) : Z := Z.of_nat (length m).

Definition Size (m : DB) : Z :=
  foldr (fun kv acc => Z.of_nat (length kv.1) + Z.of_nat (length kv.2) + acc) 0 m.

End memdb.

(** ** Write batches (batch.go) *)

Module batch.

(** Modelled from the spec: batch.go is not part of the sources at hand.
    "Encoding: seq:u64 || count:u32 || repeat { kind:u8 || varint_len(key) ||
    key || (varint_len(value) || value if kind==Value) }"; "A batch with N ops
    consumes sequence numbers base..base+N−1 in the order appended." *)
Record Batch := { seq : Z; recs : list (vType * bytes * bytes) }.

Definition len (b : Batch) : Z := Z.of_nat (length (recs b)).

(** [binary.Uvarint] and [binary.PutUvarint]. *)
Fixpoint uvarint_aux (bs : bytes) (shift : Z) (acc : Z) (i : nat)
  : option (Z * bytes) :=
  match bs with
  | [] => None
  | b :: bs' =>
      if (10 <=? i)%nat then None
      else if Z_of_byte b <? 128
      then Some (Z.lor acc (Z_of_byte b ≪ shift), bs')
      else uvarint_aux bs' (shift + 7)
             (Z.lor acc (Z.land (Z_of_byte b) 127 ≪ shift)) (S i)
  end.

Definition uvarint (bs : bytes) : option (Z * bytes) := uvarint_aux bs 0 0 0.

Fixpoint put_uvarint_aux (fuel : nat) (z : Z) : bytes :=
  match fuel with
  | O => [byte_of_Z z]
  | S fuel' =>
      if z <? 128 then [byte_of_Z z]
      else byte_of_Z (Z.lor (Z.land z 127) 128) :: put_uvarint_aux fuel' (z ≫ 7)
  end.

Definition put_uvarint (z : Z) : bytes := put_uvarint_aux 9 z.

Definition slice (bs : bytes) : bytes :=
  put_uvarint (Z.of_nat (length bs)) ++ bs.

Definition unslice (bs : bytes) : option (bytes * bytes) :=
  match uvarint bs with
  | Some (n, rest) =>
      if n <=? Z.of_nat (length rest)
      then Some (take (Z.to_nat n) rest, drop (Z.to_nat n) rest)
      else None
  | None => None
  end.

Definition encode_rec (r : vType * bytes * bytes) : bytes :=
  match r with
  | (tVal, k, v) => byte_of_Z 1 :: slice k ++ slice v
  | (tDel, k, _) => byte_of_Z 0 :: slice k
  end.

Definition encode (b : Batch) : bytes :=
  le_put 8 (seq b) ++ le_put 4 (len b) ++ concat (map encode_rec (recs b)).

Definition errBatchTooShort : error := ErrCorrupted "batch is too short".
Definition errBatchBadRecord : error := ErrCorrupted "bad record in batch".

Fixpoint decode_recs (n : nat) (bs : bytes)
  : outcome (list (vType * bytes * bytes)) :=
  match n with
  | O => if bool_decide (bs = []) then Ok [] else Err errBatchBadRecord
  | S n' =>
      match bs with
      | [] => Err errBatchBadRecord
      | t :: bs1 =>
          match unslice bs1 with
          | None => Err errBatchBadRecord
          | Some (k, bs2) =>
              if Z_of_byte t =? 1 then
                match unslice bs2 with
                | None => Err errBatchBadRecord
                | Some (v, bs3) =>
                    rs ← decode_recs n' bs3; Ok ((tVal, k, v) :: rs)
                end
              else if Z_of_byte t =? 0 then
                rs ← decode_recs n' bs2; Ok ((tDel, k, []) :: rs)
              else Err errBatchBadRecord
          end
      end
  end.

Definition decode (buf : bytes) : outcome Batch :=
  if (length buf <? 12)%nat then Err errBatchTooShort
  else
    rs ← decode_recs (Z.to_nat (le_get (take 4 (drop 8 buf)))) (drop 12 buf);
    Ok {| seq := le_get (take 8 buf); recs := rs |}.

(** Replay into a memtable: the i-th operation is inserted under the
    sequence number [seq + i]. *)
Fixpoint replay_from `{Comparer} (s : Z) (rs : list (vType * bytes * bytes))
  (m : memdb.DB) : memdb.DB :=
  match rs with
  | [] => m
  | (t, k, v) :: rs' => replay_from (s + 1) rs' (memdb.Put (newIKey k s t) v m)
  end.

Definition memReplay `{Comparer} (b : Batch) (m : memdb.DB) : outcome memdb.DB :=
  Ok (replay_from (seq b) (recs b) m).

End batch.

(** ** Storage, files and their contents (package storage) *)

Inductive FileType := TypeManifest | TypeJournal | TypeTable | TypeTemp.

#[global] Instance FileType_eq_dec : EqDecision FileType.
Proof. solve_decision. Defined.

(** [storage.TypeAll] is the mask of all four types. *)
Definition TypeAll : list FileType :=
  [TypeManifest; TypeJournal; TypeTable; TypeTemp].

(** A table handle of a version ([tFile], table.go): file number, size and
    the smallest and largest internal keys. *)
Record tFile := { t_num : Z; t_size : Z; t_min : bytes; t_max : bytes }.

Definition newTFile (num size : Z) (min max : bytes) : tFile :=
  {| t_num := num; t_size := size; t_min := min; t_max := max |}.

(** Modelled from the spec: session_record.go is not part of the sources at
    hand. "Version edit: a delta with fields {added_tables[level,file],
    deleted_tables[level,file], next_file_num, last_seq, log_num, ...}";
    a field that was not set is [None]. *)
Record sessionRecord := {
  r_journalNum : option Z;
  r_nextNum : option Z;
  r_seq : option Z;
  r_addedTables : list (Z * tFile);
  r_deletedTables : list (Z * Z)
}.

Definition new_sessionRecord : sessionRecord :=
  {| r_journalNum := None; r_nextNum := None; r_seq := None;
     r_addedTables := []; r_deletedTables := [] |}.

Definition addTableFile (level : Z) (t : tFile) (r : sessionRecord) :=
  {| r_journalNum := r_journalNum r; r_nextNum := r_nextNum r;
     r_seq := r_seq r; r_addedTables := r_addedTables r ++ [(level, t)];
     r_deletedTables := r_deletedTables r |}.

Definition setSeq (seq : Z) (r : sessionRecord) :=
  {| r_journalNum := r_journalNum r; r_nextNum := r_nextNum r;
     r_seq := Some seq; r_addedTables := r_addedTables r;
     r_deletedTables := r_deletedTables r |}.

Definition setJournalNum (num : Z) (r : sessionRecord) :=
  {| r_journalNum := Some num; r_nextNum := r_nextNum r;
     r_seq := r_seq r; r_addedTables := r_addedTables r;
     r_deletedTables := r_deletedTables r |}.

Definition setNextNum (num : Z) (r : sessionRecord) :=
  {| r_journalNum := r_journalNum r; r_nextNum := Some num;
     r_seq := r_seq r; r_addedTables := r_addedTables r;
     r_deletedTables := r_deletedTables r |}.

(** Modelled from the spec: package journal is not part of the sources at
    hand. A journal file is a sequence of framed records; what the reader
    meets is an intact record, a damaged chunk where a record should start,
    or a record whose first chunk is intact and whose continuation is
    damaged ("a CRC over {type, payload}"). The numbers are the bytes lost. *)
Inductive jentry :=
| JRecord (payload : bytes)
| JBadChunk (n : Z)
| JTorn (n : Z).

(** What a file holds. A table holds its records in key order and, when it
    is damaged, the error that reading past them gives. *)
Inductive content :=
| Table (records : list (bytes * bytes)) (damage : option error)
| Journal (entries : list jentry)
| Manifest (edits : list sessionRecord)
| Opaque (data : bytes).

Record File := {
  Type_ : FileType;
  Num : Z;
  f_content : content;
  f_size_err : option error;
  f_open_err : option error
}.

(** Modelled from the spec: "Storage interface: a namespace of typed files
    with integer file numbers ... list-by-type, create, open, remove, rename,
    size, lock/unlock". [st_current] is the manifest that CURRENT names;
    [st_lock_err] and [st_write_err] are the errors that locking, and
    creating or writing a file, meet on this storage. *)
Record Storage := {
  st_files : list File;
  st_current : option Z;
  st_lock_err : option error;
  st_write_err : option error
}.

Definition with_files (fs : list File) (p : Storage) : Storage :=
  {| st_files := fs; st_current := st_current p;
     st_lock_err := st_lock_err p; st_write_err := st_write_err p |}.

Definition with_current (m : option Z) (p : Storage) : Storage :=
  {| st_files := st_files p; st_current := m;
     st_lock_err := st_lock_err p; st_write_err := st_write_err p |}.

Definition same_file (ft : FileType) (num : Z) (f : File) : bool :=
  bool_decide (Type_ f = ft) && (Num f =? num).

Definition GetFiles (ts : list FileType) (p : Storage) : list File :=
  filter (fun f => Type_ f ∈ ts) (st_files p).

Definition GetFile (ft : FileType) (num : Z) (p : Storage) : option File :=
  head (filter (fun f => same_file ft num f = true) (st_files p)).

Definition new_file (ft : FileType) (num : Z) (c : content) : File :=
  {| Type_ := ft; Num := num; f_content := c;
     f_size_err := None; f_open_err := None |}.

(** [file.Create] followed by writing [c]: replaces a file of the same type
    and number. *)
Definition Create (ft : FileType) (num : Z) (c : content) (p : Storage)
  : outcome Storage :=
  match st_write_err p with
  | Some e => Err e
  | None =>
      Ok (with_files
            (filter (fun f => same_file ft num f = false) (st_files p)
               ++ [new_file ft num c]) p)
  end.

Definition Remove (ft : FileType) (num : Z) (p : Storage) : Storage :=
  with_files (filter (fun f => same_file ft num f = false) (st_files p)) p.

Definition content_size (c : content) : Z :=
  match c with
  | Table recs _ => memdb.Size recs
  | Journal es =>
      foldr (fun e acc =>
               match e with
               | JRecord p => Z.of_nat (length p) + acc
               | JBadChunk n | JTorn n => n + acc
               end) 0 es
  | Manifest edits => Z.of_nat (length edits)
  | Opaque data => Z.of_nat (length data)
  end.

(** [f.Size()] *)
Definition Size (f : File) : outcome Z :=
  match f_size_err f with
  | Some e => Err e
  | None => Ok (content_size (f_content f))
  end.

(** [files.sort]: by file number, ascending. *)
Definition file_le (f g : File) : Prop := Num f <= Num g.

#[global] Instance file_le_dec f g : Decision (file_le f g).
Proof. unfold file_le. apply _. Defined.

Definition files_sort (fs : list File) : list File := merge_sort file_le fs.

(** ** Table access (table.go) *)

(** Modelled from the spec: "reader.iterator(read_opts) → iter". The
    iterator of a table file yields its records in order; [First] and [Last]
    position it when there is a record to stand on, and a damaged table
    cannot be read to its end. *)
Record TableIter := { it_recs : list (bytes * bytes); it_err : option error }.

Definition tops_newIterator (f : File) : TableIter :=
  match f_open_err f, f_content f with
  | Some e, _ => {| it_recs := []; it_err := Some e |}
  | None, Table recs dmg => {| it_recs := recs; it_err := dmg |}
  | None, _ => {| it_recs := []; it_err := Some (ErrCorrupted "not a table") |}
  end.

(** [iter.First()] followed by [iter.Key()]. *)
Definition iter_First (it : TableIter) : option bytes :=
  fst <$> head (it_recs it).

(** [iter.Last()] followed by [iter.Key()]. *)
Definition iter_Last (it : TableIter) : option bytes :=
  match it_err it with
  | Some _ => None
  | None => fst <$> list.last (it_recs it)
  end.

Definition iter_Error (it : TableIter) : option error := it_err it.

(** The keys that a [for iter.Next()] loop visits. *)
Definition iter_keys (it : TableIter) : list bytes := fst <$> it_recs it.

(** ** Options and caches (packages opt and cache) *)

Inductive OptionsFlag := OFCreateIfMissing | OFErrorIfExist | OFStrict.
Inductive ReadOptionsFlag := RFVerifyChecksums | RFDontFillCache | RFDontCopyBuffer.

#[global] Instance OptionsFlag_eq_dec : EqDecision OptionsFlag.
Proof. solve_decision. Defined.
#[global] Instance ReadOptionsFlag_eq_dec : EqDecision ReadOptionsFlag.
Proof. solve_decision. Defined.

(** Modelled from the spec: package cache is not part of the sources at
    hand. "The layer maintains an LRU of open table readers" with a
    capacity: the keys of the cached handles. [Purge] drops them all. What
    [SetCapacity] does with the cached handles is not modelled: it is taken
    as given where the option setter calls it. *)
Record Cache := { c_capacity : Z; c_entries : list Z }.

Definition NewLRUCache (capacity : Z) : Cache :=
  {| c_capacity := capacity; c_entries := [] |}.

Definition Cache_Purge (c : Cache) : Cache :=
  {| c_capacity := c_capacity c; c_entries := [] |}.

Record Options := {
  Flag : list OptionsFlag;
  WriteBuffer : Z;
  MaxOpenFiles : Z;
  BlockCache : option Cache
}.

Record ReadOptions := { RFlag : list ReadOptionsFlag }.

Definition HasFlag (f : OptionsFlag) (o : Options) : bool :=
  bool_decide (f ∈ Flag o).

Definition RHasFlag (f : ReadOptionsFlag) (ro : ReadOptions) : bool :=
  bool_decide (f ∈ RFlag ro).

(** Modelled from the spec: [opt.Options.SetMaxOpenFiles] is not part of
    the sources at hand; "MaxOpenFiles" is an option that can be set at run
    time, and a cap of no file at all is refused as invalid. *)
Definition Options_SetMaxOpenFiles (max : Z) (o : Options)
  : option error * Options :=
  if max <? 1 then (Some opt_ErrInvalid, o)
  else (None, {| Flag := Flag o; WriteBuffer := WriteBuffer o;
                 MaxOpenFiles := max; BlockCache := BlockCache o |}).

(** Modelled from the spec: [opt.Options.SetBlockCache], likewise; a nil
    cache is refused. *)
Definition Options_SetBlockCache (c : option Cache) (o : Options)
  : option error * Options :=
  match c with
  | None => (Some opt_ErrInvalid, o)
  | Some _ => (None, {| Flag := Flag o; WriteBuffer := WriteBuffer o;
                        MaxOpenFiles := MaxOpenFiles o; BlockCache := c |})
  end.

(** ** Versions (version.go) *)

(** The tables of each level, level 0 first ([v.tables]). *)
Definition version := list (list tFile).

Definition tLen (level : Z) (v : version) : Z :=
  Z.of_nat (length (default [] (v !! Z.to_nat level))).

Definition removed (level : nat) (r : sessionRecord) (t : tFile) : bool :=
  bool_decide (Exists (fun d => d.1 = Z.of_nat level /\ d.2 = t_num t)
                 (r_deletedTables r)).

Definition added (level : nat) (r : sessionRecord) : list tFile :=
  snd <$> filter (fun a => a.1 = Z.of_nat level) (r_addedTables r).

Definition record_depth (r : sessionRecord) : nat :=
  foldr (fun a acc => Nat.max (S (Z.to_nat a.1)) acc) O (r_addedTables r).

(** Modelled from the spec: "Applying a version edit to a version produces
    a new version": the deleted tables leave their level, the added ones
    join theirs. *)
Definition spawn (r : sessionRecord) (v : version) : version :=
  (fun level =>
     filter (fun t => removed level r t = false) (default [] (v !! level))
       ++ added level r)
    <$> seq 0 (Nat.max (length v) (record_depth r)).

(** [v.fillRecord]: every table of the version, as an addition. *)
Definition version_fillRecord (v : version) (r : sessionRecord) : sessionRecord :=
  foldl (fun r lt => foldl (fun r t => addTableFile (Z.of_nat lt.1) t r) r lt.2)
    r (imap (fun i ts => (i, ts)) v).

Section VersionGet.
Context `{Comparer}.

(** The first record at or after [key] in a sorted run of records. *)
Definition find_ge (key : bytes) (recs : list (bytes * bytes))
  : option (bytes * bytes) :=
  match memdb.Find key recs with
  | (k, v, None) => Some (k, v)
  | _ => None
  end.

(** Modelled from the spec: "reader.get(ikey, read_opts) → (ikey, value)?" *)
Definition tops_get (p : Storage) (t : tFile) (ikey : bytes)
  : outcome (option (bytes * bytes)) :=
  match GetFile TypeTable (t_num t) p with
  | None => Err os_ErrNotExist
  | Some f =>
      let it := tops_newIterator f in
      match find_ge ikey (it_recs it), it_err it with
      | Some kv, _ => Ok (Some kv)
      | None, Some e => Err e
      | None, None => Ok None
      end
  end.

Fixpoint newest_first (ts : list tFile) : list tFile :=
  match ts with
  | [] => []
  | t :: ts' =>
      let rest := newest_first ts' in
      filter (fun u => (t_num t <? t_num u) = true) rest
        ++ t :: filter (fun u => (t_num t <? t_num u) = false) rest
  end.

(** The tables of a level that a lookup of [ikey] consults. *)
Definition candidates (level : nat) (ts : list tFile) (ikey : bytes)
  : list tFile :=
  match level with
  | O =>
      newest_first
        (filter (fun t => (0 <=? Compare (ukey ikey) (ukey (t_min t)))
                          && (Compare (ukey ikey) (ukey (t_max t)) <=? 0) = true) ts)
  | S _ =>
      match filter (fun t => (0 <=? iCompare (t_max t) ikey) = true) ts with
      | t :: _ => if 0 <=? Compare (ukey ikey) (ukey (t_min t)) then [t] else []
      | [] => []
      end
  end.

Fixpoint search (p : Storage) (ts : list tFile) (ikey : bytes)
  (missed : option Z) : bytes * option error * option Z :=
  match ts with
  | [] => ([], Some ErrNotFound, missed)
  | t :: ts' =>
      let missed' := match missed with Some _ => missed | None => Some (t_num t) end in
      match tops_get p t ikey with
      | Err e => ([], Some e, missed)
      | Panic _ => ([], Some (ErrCorrupted "table"), missed)
      | Ok None => search p ts' ikey missed'
      | Ok (Some (rkey, rvalue)) =>
          match parseIkey rkey with
          | None => ([], Some (ErrCorrupted "internal key"), missed)
          | Some (uk, _, t') =>
              if Compare uk (ukey ikey) =? 0 then
                match t' with
                | tVal => (rvalue, None, missed)
                | tDel => ([], Some ErrNotFound, missed)
                end
              else search p ts' ikey missed'
          end
      end
  end.

(** Modelled from the spec: version.go is not part of the sources at hand.
    "search L0 newest-first for tables whose range contains ikey.user_key;
    for L ≥ 1, binary-search at most one table per level. Stop at the first
    matching user key: return its value if kind=Value, NotFound if
    kind=Deletion." The second component is the seek charge: the counters of
    seek misses are not kept here, and a lookup that consulted a table in vain
    before it found its answer reports the charge at once. *)
Definition version_get (p : Storage) (v : version) (ikey : bytes)
  : bytes * bool * option error :=
  let ts := concat (imap (fun level ts => candidates level ts ikey) v) in
  let '(value, err, missed) := search p ts ikey None in
  (value, bool_decide (is_Some missed /\ err = None), err).

End VersionGet.

(** ** Sessions (session.go) *)

(** The state of a session: the storage it works on, its options, the cache
    of open tables ([s.tops.cache]), the counters of the manifest
    ([stFileNum], [stJournalNum], [stPrevJournalNum], [stSeq]), the manifest
    being written, the current version, and what the droppers of the journal
    readers were told (file number, bytes). *)
Record session := {
  stor : Storage;
  o : Options;
  tops_cache : Cache;
  stFileNum : Z;
  stJournalNum : Z;
  stPrevJournalNum : Z;
  stSeq : Z;
  manifest : option Z;
  stVersion : version;
  s_dropped : list (Z * Z)
}.

Definition with_stor (p : Storage) (s : session) : session :=
  {| stor := p; o := o s; tops_cache := tops_cache s; stFileNum := stFileNum s;
     stJournalNum := stJournalNum s; stPrevJournalNum := stPrevJournalNum s;
     stSeq := stSeq s; manifest := manifest s; stVersion := stVersion s;
     s_dropped := s_dropped s |}.

Definition with_o (opts : Options) (s : session) : session :=
  {| stor := stor s; o := opts; tops_cache := tops_cache s; stFileNum := stFileNum s;
     stJournalNum := stJournalNum s; stPrevJournalNum := stPrevJournalNum s;
     stSeq := stSeq s; manifest := manifest s; stVersion := stVersion s;
     s_dropped := s_dropped s |}.

Definition with_tops_cache (c : Cache) (s : session) : session :=
  {| stor := stor s; o := o s; tops_cache := c; stFileNum := stFileNum s;
     stJournalNum := stJournalNum s; stPrevJournalNum := stPrevJournalNum s;
     stSeq := stSeq s; manifest := manifest s; stVersion := stVersion s;
     s_dropped := s_dropped s |}.

Definition with_stFileNum (n : Z) (s : session) : session :=
  {| stor := stor s; o := o s; tops_cache := tops_cache s; stFileNum := n;
     stJournalNum := stJournalNum s; stPrevJournalNum := stPrevJournalNum s;
     stSeq := stSeq s; manifest := manifest s; stVersion := stVersion s;
     s_dropped := s_dropped s |}.

Definition with_manifest (m : option Z) (s : session) : session :=
  {| stor := stor s; o := o s; tops_cache := tops_cache s; stFileNum := stFileNum s;
     stJournalNum := stJournalNum s; stPrevJournalNum := stPrevJournalNum s;
     stSeq := stSeq s; manifest := m; stVersion := stVersion s;
     s_dropped := s_dropped s |}.

Definition setVersion (v : version) (s : session) : session :=
  {| stor := stor s; o := o s; tops_cache := tops_cache s; stFileNum := stFileNum s;
     stJournalNum := stJournalNum s; stPrevJournalNum := stPrevJournalNum s;
     stSeq := stSeq s; manifest := manifest s; stVersion := v;
     s_dropped := s_dropped s |}.

(** [dropper{s, file}.Drop]: the drop sink of a journal reader. *)
Definition Drop (file : File) (n : Z) (s : session) : session :=
  {| stor := stor s; o := o s; tops_cache := tops_cache s; stFileNum := stFileNum s;
     stJournalNum := stJournalNum s; stPrevJournalNum := stPrevJournalNum s;
     stSeq := stSeq s; manifest := manifest s; stVersion := stVersion s;
     s_dropped := s_dropped s ++ [(Num file, n)] |}.

(** Modelled from the spec: session.go is not part of the sources at hand.
    A session takes the "LOCK — advisory exclusive lock" of the storage and
    starts with no version, no manifest and all counters at zero. *)
Definition newSession (p : Storage) (opts : Options) : outcome session :=
  match st_lock_err p with
  | Some e => Err e
  | None =>
      Ok {| stor := p; o := opts; tops_cache := NewLRUCache (MaxOpenFiles opts);
            stFileNum := 0; stJournalNum := 0; stPrevJournalNum := 0;
            stSeq := 0; manifest := None; stVersion := []; s_dropped := [] |}
  end.

Definition getFiles (ts : list FileType) (s : session) : list File :=
  GetFiles ts (stor s).

(** Modelled from the spec: file numbers are handed out from the counter
    "next_file_num", a 64-bit counter increased by one. *)
Definition allocFileNum (s : session) : Z * session :=
  (stFileNum s, with_stFileNum (u64 (stFileNum s + 1)) s).

(** Modelled from the spec: [markFileNum] raises the counter above a file
    number met on the storage. *)
Definition markFileNum (num : Z) (s : session) : session :=
  with_stFileNum (Z.max (stFileNum s) (u64 (num + 1))) s.

(** Modelled from the spec: a record written to the manifest carries
    "next_file_num", and a snapshot record also "last_seq" and "log_num" when
    the edit did not set them. *)
Definition fillRecord (snapshot : bool) (s : session) (r : sessionRecord)
  : sessionRecord :=
  let r := setNextNum (stFileNum s) r in
  if snapshot then
    let r := if r_journalNum r is None then setJournalNum (stJournalNum s) r else r in
    if r_seq r is None then setSeq (stSeq s) r else r
  else r.

(** Modelled from the spec: the counters of the session follow the edit
    that was committed. *)
Definition recordCommited (r : sessionRecord) (s : session) : session :=
  {| stor := stor s; o := o s; tops_cache := tops_cache s; stFileNum := stFileNum s;
     stJournalNum := default (stJournalNum s) (r_journalNum r);
     stPrevJournalNum := stPrevJournalNum s;
     stSeq := default (stSeq s) (r_seq r);
     manifest := manifest s; stVersion := stVersion s;
     s_dropped := s_dropped s |}.

(** Modelled from the spec: a new manifest "MANIFEST-<num>" takes the next
    file number, starts with a snapshot of the version, and CURRENT is made
    to name it. *)
Definition newManifest (r : sessionRecord) (v : version) (s : session)
  : outcome session :=
  let '(num, s) := allocFileNum s in
  let r := version_fillRecord v (fillRecord true s r) in
  p ← Create TypeManifest num (Manifest [r]) (stor s);
  Ok (recordCommited r (with_manifest (Some num) (with_stor (with_current (Some num) p) s))).

(** Modelled from the spec: "writing the edit to the manifest and fsyncing". *)
Definition flushManifest (num : Z) (r : sessionRecord) (s : session)
  : outcome session :=
  let r := fillRecord false s r in
  let old := match GetFile TypeManifest num (stor s) with
             | Some {| f_content := Manifest edits |} => edits
             | _ => []
             end in
  p ← Create TypeManifest num (Manifest (old ++ [r])) (stor s);
  Ok (recordCommited r (with_stor p s)).

(** [s.create()]: a brand new manifest. *)
Definition create (s : session) : outcome session :=
  newManifest new_sessionRecord (stVersion s) s.

(** Modelled from the spec: "applies a version edit by (i) computing the
    next version, (ii) writing the edit to the manifest and fsyncing, (iii)
    atomically swapping the current pointer"; "If the manifest write fails,
    the old version remains current". *)
Definition commit (r : sessionRecord) (s : session) : outcome session :=
  let nv := spawn r (stVersion s) in
  s' ← match manifest s with
       | None => newManifest r nv s
       | Some num => flushManifest num r s
       end;
  Ok (setVersion nv s').

Definition apply_edit (s : session) (r : sessionRecord) : session :=
  let s := recordCommited r (setVersion (spawn r (stVersion s)) s) in
  with_stFileNum (default (stFileNum s) (r_nextNum r)) s.

(** Modelled from the spec: "On open, the current manifest is replayed;
    the resulting version is the initial live version." Without a CURRENT
    manifest there is no database, which is a not-exist error. *)
Definition recover (s : session) : outcome session :=
  match st_current (stor s) with
  | None => Err os_ErrNotExist
  | Some num =>
      match GetFile TypeManifest num (stor s) with
      | None => Err os_ErrNotExist
      | Some f =>
          match f_open_err f, f_content f with
          | Some e, _ => Err e
          | None, Manifest edits => Ok (foldl apply_edit s edits)
          | None, _ => Err (ErrCorrupted "manifest")
          end
      end
  end.

(** ** Flushing a memtable (db_compaction.go) *)

Definition firstKey (m : memdb.DB) : bytes := default [] (fst <$> head m).
Definition lastKey (m : memdb.DB) : bytes := default [] (fst <$> list.last m).

(** Modelled from the spec: "drain the frozen memtable into a single new
    L0 table": the table takes the next file number and is noted in the edit
    under construction. *)
Definition cm_flush (mem : memdb.DB) (level : Z) (cm : sessionRecord)
  (s : session) : outcome (sessionRecord * session) :=
  let '(num, s) := allocFileNum s in
  p ← Create TypeTable num (Table mem None) (stor s);
  Ok (addTableFile level (newTFile num (memdb.Size mem) (firstKey mem) (lastKey mem)) cm,
      with_stor p s).

(** Modelled from the spec: the edit is committed with the journal number
    and the last sequence number. *)
Definition cm_commit (journal seq : Z) (cm : sessionRecord) (s : session)
  : outcome session :=
  commit (setSeq seq (setJournalNum journal cm)) s.

(** ** The DB handle (db.go) *)

(** A manual compaction request ([cReq]). *)
Record cReq := { cr_level : Z; cr_min : bytes; cr_max : bytes }.

Record Range := { Start : bytes; Limit : bytes }.

(** The fields of [DB] that a caller can observe. [d_compCh] tells that the
    one slot of [compCh] is taken; [d_compReqCh] holds the requests that the
    compaction worker has received; [d_compErrCh] is the error that the
    compaction-error goroutine offers, if any; [d_closeCh] tells that
    [closeCh] was closed; [d_closer] is the [io.Closer] with the error its
    [Close] gives. *)
Record DB := {
  d_seq : Z;
  d_s : session;
  d_mem : option memdb.DB;
  d_frozenMem : option memdb.DB;
  d_journal : bool;
  d_journalFile : option Z;
  d_frozenJournalFile : option Z;
  d_frozenSeq : Z;
  d_snaps : list Z;
  d_compCh : bool;
  d_compReqCh : list cReq;
  d_compErrCh : option error;
  d_closeCh : bool;
  d_closed : Z;
  d_closer : option (option error)
}.

Definition with_seq (n : Z) (d : DB) : DB :=
  {| d_seq := n; d_s := d_s d; d_mem := d_mem d; d_frozenMem := d_frozenMem d;
     d_journal := d_journal d; d_journalFile := d_journalFile d;
     d_frozenJournalFile := d_frozenJournalFile d; d_frozenSeq := d_frozenSeq d;
     d_snaps := d_snaps d; d_compCh := d_compCh d; d_compReqCh := d_compReqCh d;
     d_compErrCh := d_compErrCh d; d_closeCh := d_closeCh d;
     d_closed := d_closed d; d_closer := d_closer d |}.

Definition with_s (s : session) (d : DB) : DB :=
  {| d_seq := d_seq d; d_s := s; d_mem := d_mem d; d_frozenMem := d_frozenMem d;
     d_journal := d_journal d; d_journalFile := d_journalFile d;
     d_frozenJournalFile := d_frozenJournalFile d; d_frozenSeq := d_frozenSeq d;
     d_snaps := d_snaps d; d_compCh := d_compCh d; d_compReqCh := d_compReqCh d;
     d_compErrCh := d_compErrCh d; d_closeCh := d_closeCh d;
     d_closed := d_closed d; d_closer := d_closer d |}.

Definition with_snaps (l : list Z) (d : DB) : DB :=
  {| d_seq := d_seq d; d_s := d_s d; d_mem := d_mem d; d_frozenMem := d_frozenMem d;
     d_journal := d_journal d; d_journalFile := d_journalFile d;
     d_frozenJournalFile := d_frozenJournalFile d; d_frozenSeq := d_frozenSeq d;
     d_snaps := l; d_compCh := d_compCh d; d_compReqCh := d_compReqCh d;
     d_compErrCh := d_compErrCh d; d_closeCh := d_closeCh d;
     d_closed := d_closed d; d_closer := d_closer d |}.

Definition with_compCh (b : bool) (d : DB) : DB :=
  {| d_seq := d_seq d; d_s := d_s d; d_mem := d_mem d; d_frozenMem := d_frozenMem d;
     d_journal := d_journal d; d_journalFile := d_journalFile d;
     d_frozenJournalFile := d_frozenJournalFile d; d_frozenSeq := d_frozenSeq d;
     d_snaps := d_snaps d; d_compCh := b; d_compReqCh := d_compReqCh d;
     d_compErrCh := d_compErrCh d; d_closeCh := d_closeCh d;
     d_closed := d_closed d; d_closer := d_closer d |}.

Definition with_compReqCh (l : list cReq) (d : DB) : DB :=
  {| d_seq := d_seq d; d_s := d_s d; d_mem := d_mem d; d_frozenMem := d_frozenMem d;
     d_journal := d_journal d; d_journalFile := d_journalFile d;
     d_frozenJournalFile := d_frozenJournalFile d; d_frozenSeq := d_frozenSeq d;
     d_snaps := d_snaps d; d_compCh := d_compCh d; d_compReqCh := l;
     d_compErrCh := d_compErrCh d; d_closeCh := d_closeCh d;
     d_closed := d_closed d; d_closer := d_closer d |}.

Definition with_compErrCh (e : option error) (d : DB) : DB :=
  {| d_seq := d_seq d; d_s := d_s d; d_mem := d_mem d; d_frozenMem := d_frozenMem d;
     d_journal := d_journal d; d_journalFile := d_journalFile d;
     d_frozenJournalFile := d_frozenJournalFile d; d_frozenSeq := d_frozenSeq d;
     d_snaps := d_snaps d; d_compCh := d_compCh d; d_compReqCh := d_compReqCh d;
     d_compErrCh := e; d_closeCh := d_closeCh d;
     d_closed := d_closed d; d_closer := d_closer d |}.

Definition with_closed (n : Z) (d : DB) : DB :=
  {| d_seq := d_seq d; d_s := d_s d; d_mem := d_mem d; d_frozenMem := d_frozenMem d;
     d_journal := d_journal d; d_journalFile := d_journalFile d;
     d_frozenJournalFile := d_frozenJournalFile d; d_frozenSeq := d_frozenSeq d;
     d_snaps := d_snaps d; d_compCh := d_compCh d; d_compReqCh := d_compReqCh d;
     d_compErrCh := d_compErrCh d; d_closeCh := d_closeCh d;
     d_closed := n; d_closer := d_closer d |}.

Definition with_closeCh (b : bool) (d : DB) : DB :=
  {| d_seq := d_seq d; d_s := d_s d; d_mem := d_mem d; d_frozenMem := d_frozenMem d;
     d_journal := d_journal d; d_journalFile := d_journalFile d;
     d_frozenJournalFile := d_frozenJournalFile d; d_frozenSeq := d_frozenSeq d;
     d_snaps := d_snaps d; d_compCh := d_compCh d; d_compReqCh := d_compReqCh d;
     d_compErrCh := d_compErrCh d; d_closeCh := b;
     d_closed := d_closed d; d_closer := d_closer d |}.

Definition with_journal (b : bool) (d : DB) : DB :=
  {| d_seq := d_seq d; d_s := d_s d; d_mem := d_mem d; d_frozenMem := d_frozenMem d;
     d_journal := b; d_journalFile := d_journalFile d;
     d_frozenJournalFile := d_frozenJournalFile d; d_frozenSeq := d_frozenSeq d;
     d_snaps := d_snaps d; d_compCh := d_compCh d; d_compReqCh := d_compReqCh d;
     d_compErrCh := d_compErrCh d; d_closeCh := d_closeCh d;
     d_closed := d_closed d; d_closer := d_closer d |}.

Definition with_closer (c : option (option error)) (d : DB) : DB :=
  {| d_seq := d_seq d; d_s := d_s d; d_mem := d_mem d; d_frozenMem := d_frozenMem d;
     d_journal := d_journal d; d_journalFile := d_journalFile d;
     d_frozenJournalFile := d_frozenJournalFile d; d_frozenSeq := d_frozenSeq d;
     d_snaps := d_snaps d; d_compCh := d_compCh d; d_compReqCh := d_compReqCh d;
     d_compErrCh := d_compErrCh d; d_closeCh := d_closeCh d;
     d_closed := d_closed d; d_closer := c |}.

(** *** State helpers (db_state.go, db_util.go) *)

(** Modelled from the spec: db_state.go is not part of the sources at hand.
    A new journal file takes the next file number; the memtable in use
    becomes the frozen one ("rotate: freeze the current memtable, open a new
    journal file, create a fresh memtable"). *)
Definition newMem (d : DB) : outcome DB :=
  let '(num, s) := allocFileNum (d_s d) in
  match Create TypeJournal num (Journal []) (stor s) with
  | Err e => Err e
  | Panic msg => Panic msg
  | Ok p =>
      Ok {| d_seq := d_seq d; d_s := with_stor p s;
            d_mem := Some memdb.New; d_frozenMem := d_mem d;
            d_journal := true; d_journalFile := Some num;
            d_frozenJournalFile := if d_journal d then d_journalFile d
                                   else d_frozenJournalFile d;
            d_frozenSeq := d_seq d;
            d_snaps := d_snaps d; d_compCh := d_compCh d;
            d_compReqCh := d_compReqCh d; d_compErrCh := d_compErrCh d;
            d_closeCh := d_closeCh d; d_closed := d_closed d;
            d_closer := d_closer d |}
  end.

Definition getMem (d : DB) : option memdb.DB * option memdb.DB :=
  (d_mem d, d_frozenMem d).

Definition getSeq (d : DB) : Z := d_seq d.

(** Modelled from the spec: "closing the DB (i) refuses new public calls
    with Closed": [setClosed] raises the flag once and tells whether this
    call raised it, [ok] answers [ErrClosed] once it is raised. *)
Definition setClosed (d : DB) : bool * DB :=
  if d_closed d =? 0 then (true, with_closed 1 d) else (false, d).

Definition isClosed (d : DB) : bool := negb (d_closed d =? 0).

Definition ok (d : DB) : option error :=
  if isClosed d then Some ErrClosed else None.

(** Modelled from the spec: "a file on disk not referenced by the current
    version and not protected by any live version reference is eventually
    deleted": old manifests, journals older than the one in use, and tables
    that the version does not list. *)
Definition cleanFiles (d : DB) : DB :=
  let s := d_s d in
  let tables := t_num <$> concat (stVersion s) in
  let keep (f : File) : bool :=
    match Type_ f with
    | TypeManifest => default 0 (manifest s) <=? Num f
    | TypeJournal =>
        match d_frozenJournalFile d with
        | Some n => n <=? Num f
        | None => default 0 (d_journalFile d) <=? Num f
        end
    | TypeTable => bool_decide (Num f ∈ tables)
    | TypeTemp => true
    end in
  with_s (with_stor (with_files (filter (fun f => keep f = true) (st_files (stor s)))
                       (stor s)) s) d.

(** Modelled from the spec: closing a session closes the manifest and
    "releases the underlying file descriptor" of every open table. *)
Definition session_close (s : session) : session :=
  with_manifest None (with_tops_cache (Cache_Purge (tops_cache s)) s).

(** *** Journal replay: [DB.recoverJournal] *)

(** Modelled from the spec: the journal reader. "A reader streams records
    and, in non-strict mode, resynchronizes on corruption by scanning forward
    ... and emitting a drop notification to an external sink"; "next() →
    bytes | EOF | Err". [Reader_Next] is what [jr.Next()] does on meeting an
    entry: a damaged chunk is reported to the dropper and, unless the reader
    is strict, skipped ([None]: the reader looks further); anything else is
    handed out as a record reader. *)
Definition Reader_Next (strict : bool) (file : File) (e : jentry) (s : session)
  : session * option (outcome jentry) :=
  match e with
  | JBadChunk n =>
      (Drop file n s, if strict then Some (Err (ErrCorrupted "journal")) else None)
  | _ => (s, Some (Ok e))
  end.

(** Modelled from the spec: reading a record to its end
    ([buf.ReadFrom(r)]). A torn record is reported to the dropper and the
    read fails. *)
Definition ReadFrom (strict : bool) (file : File) (r : jentry) (s : session)
  : session * outcome bytes :=
  match r with
  | JRecord payload => (s, Ok payload)
  | JBadChunk n | JTorn n =>
      (Drop file n s,
       Err (if strict then ErrCorrupted "journal" else io_ErrUnexpectedEOF))
  end.

Definition journal_entries (f : File) : list jentry :=
  match f_content f with
  | Journal es => es
  | c => [JBadChunk (content_size c)]
  end.

Section Replay.
Context `{Comparer}.

(** The inner [for] loop of [recoverJournal], one entry of the journal
    after the other; the end of the entries is [io.EOF]. *)
Fixpoint replay (strict : bool) (writeBuffer : Z) (file : File)
  (es : list jentry) (d : DB) (mem : memdb.DB) (cm : sessionRecord)
  : outcome (DB * memdb.DB * sessionRecord) :=
  match es with
  | [] => Ok (d, mem, cm)
  | e :: es' =>
      let '(s1, r) := Reader_Next strict file e (d_s d) in
      let d := with_s s1 d in
      match r with
      | None => replay strict writeBuffer file es' d mem cm
      | Some (Err err) => Err err
      | Some (Panic msg) => Panic msg
      | Some (Ok rd) =>
          let '(s2, b) := ReadFrom strict file rd (d_s d) in
          let d := with_s s2 d in
          match b with
          | Err err =>
              if strict then Err err
              else replay strict writeBuffer file es' d mem cm
          | Panic msg => Panic msg
          | Ok payload =>
              bt ← batch.decode payload;
              mem ← batch.memReplay bt mem;
              let d := with_seq (u64 (batch.seq bt + u64 (batch.len bt))) d in
              if writeBuffer <=? memdb.Size mem then
                '(cm, s3) ← cm_flush mem 0 cm (d_s d);
                replay strict writeBuffer file es' (with_s s3 d) memdb.New cm
              else replay strict writeBuffer file es' d mem cm
          end
      end
  end.

Definition flush_if_any (mem : option memdb.DB) (cm : sessionRecord)
  (s : session) : outcome (sessionRecord * session) :=
  match mem with
  | Some m => if 0 <? memdb.Len m then cm_flush m 0 cm s else Ok (cm, s)
  | None => Ok (cm, s)
  end.

Definition remove_file (f : File) (s : session) : session :=
  with_stor (Remove (Type_ f) (Num f) (stor s)) s.

(** The outer loop: one journal file after the other; [ofile] is the [of] of the code, the journal that was replayed last. *)
Fixpoint recover_files (strict : bool) (writeBuffer : Z) (files : list File)
  (d : DB) (mem : option memdb.DB) (cm : sessionRecord) (ofile : option File)
  : outcome (DB * option memdb.DB * sessionRecord * option File) :=
  match files with
  | [] => Ok (d, mem, cm, ofile)
  | file :: files' =>
      _ ← try (f_open_err file);
      '(d, cm, ofile) ←
        match mem with
        | Some m =>
            '(cm, s) ← flush_if_any mem cm (d_s d);
            s ← cm_commit (Num file) (d_seq d) cm s;
            match ofile with
            | Some f => Ok (with_s (remove_file f s) d, new_sessionRecord, None)
            | None => Panic "nil pointer dereference"
            end
        | None => Ok (d, cm, ofile)
        end;
      '(d, m, cm) ← replay strict writeBuffer file (journal_entries file) d memdb.New cm;
      recover_files strict writeBuffer files' d (Some m) cm (Some file)
  end.

(** The journals to replay, and the file counter raised above them. *)
Definition pick_journals (s : session) (jfiles : list File) : list File * session :=
  foldl (fun '(acc, s) file =>
           if (stJournalNum s <=? Num file) || (Num file =? stPrevJournalNum s)
           then (acc ++ [file], markFileNum (Num file) s)
           else (acc, s))
    ([], s) jfiles.

Definition recoverJournal (d : DB) : outcome DB :=
  let s := d_s d in
  let jfiles := files_sort (getFiles [TypeJournal] s) in
  let '(rJfiles, s) := pick_journals s jfiles in
  let d := with_s s d in
  let strict := HasFlag OFStrict (o s) in
  let writeBuffer := WriteBuffer (o s) in
  '(d, mem, cm, ofile) ← recover_files strict writeBuffer rJfiles d None new_sessionRecord None;
  d ← newMem d;
  '(cm, s) ← flush_if_any mem cm (d_s d);
  s ← cm_commit (default 0 (d_journalFile d)) (d_seq d) cm s;
  Ok (with_s (match ofile with Some f => remove_file f s | None => s end) d).

(** *** Opening: [openDB], [Open], [Recover] *)

(** [openDB]: the handle starts at the last sequence number of the session,
    replays the journals and removes the files that are obsolete. The
    background goroutines it starts and the finalizer it sets act on the
    channels of the handle only later. *)
Definition openDB (s : session) : outcome DB :=
  let db := {| d_seq := stSeq s; d_s := s; d_mem := None; d_frozenMem := None;
               d_journal := false; d_journalFile := None;
               d_frozenJournalFile := None; d_frozenSeq := 0;
               d_snaps := []; d_compCh := false; d_compReqCh := [];
               d_compErrCh := None; d_closeCh := false; d_closed := 0;
               d_closer := None |} in
  db ← recoverJournal db;
  Ok (cleanFiles db).

Definition error_of {A} (r : outcome A) : option error :=
  match r with Err e => Some e | _ => None end.

(** [Open]. The deferred [s.close()] releases the session when an error is
    returned; the storage it leaves behind is not part of the result. *)
Definition Open (p : Storage) (opts : Options) : outcome DB :=
  s ← newSession p opts;
  let r := recover s in
  let r :=
    if os_IsNotExist (error_of r) && HasFlag OFCreateIfMissing (o s) then create s
    else if bool_decide (error_of r = None) && HasFlag OFErrorIfExist (o s)
         then Err os_ErrExist
         else r in
  s ← r;
  openDB s.

(** [OpenFile]: the storage is opened first ([storage.OpenFile], whose
    result is given), and becomes the closer of the DB. *)
Definition OpenFile (stor : outcome Storage) (opts : Options) : outcome DB :=
  p ← stor;
  db ← Open p opts;
  Ok (with_closer (Some None) db).

(** The table loop of [Recover]: every table that has a first and a last
    key goes to level 0; [nt] is the last of them, with its file. *)
Fixpoint recover_tables (ff : list File) (rec : sessionRecord)
  (nt : option (tFile * File)) : outcome (sessionRecord * option (tFile * File)) :=
  match ff with
  | [] => Ok (rec, nt)
  | f :: ff' =>
      if bool_decide (Type_ f ≠ TypeTable) then recover_tables ff' rec nt
      else
        size ← Size f;
        let iter := tops_newIterator f in
        match iter_First iter with
        | Some kmin =>
            match iter_Last iter with
            | Some kmax =>
                let t := newTFile (Num f) size kmin kmax in
                recover_tables ff' (addTableFile 0 t rec) (Some (t, f))
            | None =>
                match iter_Error iter with
                | Some err => Err err
                | None => recover_tables ff' rec nt
                end
            end
        | None =>
            match iter_Error iter with
            | Some err => Err err
            | None => recover_tables ff' rec nt
            end
        end
  end.

(** The largest sequence number among the keys that parse. *)
Definition largest_seq (keys : list bytes) : Z :=
  foldl (fun lseq k =>
           match parseNum k with
           | Some (seq, _) => if lseq <? seq then seq else lseq
           | None => lseq
           end) 0 keys.

(** Indexing a slice: out of range panics. *)
Definition index {A} (l : list A) (i : Z) : outcome A :=
  if (i <? 0) || (Z.of_nat (length l) <=? i) then Panic "index out of range"
  else match l !! Z.to_nat i with
       | Some x => Ok x
       | None => Panic "index out of range"
       end.

(** [Recover], up to and including the commit of the record. *)
Definition Recover_session (p : Storage) (opts : Options) : outcome session :=
  if HasFlag OFStrict opts
  then Err (errors_New "leveldb: cannot recovers the DB with strict flag")
  else
    s ← newSession p opts;
    let ff := files_sort (getFiles TypeAll s) in
    '(rec, nt) ← recover_tables ff new_sessionRecord None;
    let rec :=
      match nt with
      | Some (_, f) => setSeq (largest_seq (iter_keys (tops_newIterator f))) rec
      | None => rec
      end in
    f ← index ff (Z.of_nat (length ff) - 1);
    let s := with_stFileNum (u64 (Num f + 1)) s in
    s ← create s;
    commit rec s.

Definition Recover (p : Storage) (opts : Options) : outcome DB :=
  s ← Recover_session p opts;
  openDB s.

End Replay.

(** *** Reading: [get], [Get], [NewIterator], [GetSnapshot] *)

Section Read.
Context `{Comparer}.

(** The closure [memGet] of [get]: its result, and the [value] and [err]
    it leaves in the variables of [get]. *)
Definition memGet (m : memdb.DB) (key ikey : bytes) : bool * bytes * option error :=
  let '(rkey, value, err) := memdb.Find ikey m in
  match err with
  | Some _ => (false, value, err)
  | None =>
      match parseIkey rkey with
      | Some (ukey, _, t) =>
          if negb (Compare ukey key =? 0) || bool_decide (t = tDel)
          then (false, [], Some ErrNotFound)
          else (true, value, err)
      | None => (false, [], Some ErrNotFound)
      end
  end.

(** The non-blocking send [select { case d.compCh <- nil: default: }]. *)
Definition schedule_compaction (d : DB) : DB := with_compCh true d.

Definition get (d : DB) (key : bytes) (seq : Z) (ro : ReadOptions)
  : outcome (bytes * option error * DB) :=
  let s := d_s d in
  let ikey := newIKey key seq tSeek in
  match getMem d with
  | (None, _) => Panic "nil pointer dereference"
  | (Some mem, frozenMem) =>
      let '(hit, value, err) := memGet mem key ikey in
      if hit then Ok (value, err, d)
      else
        let '(hit, value, err) :=
          match frozenMem with
          | Some fm => memGet fm key ikey
          | None => (false, value, err)
          end in
        if hit then Ok (value, err, d)
        else
          let v := stVersion s in
          let '(value, cState, err) := version_get (stor s) v ikey in
          Ok (value, err, if cState then schedule_compaction d else d)
  end.

Definition Get (d : DB) (key : bytes) (ro : ReadOptions)
  : outcome (bytes * option error * DB) :=
  match ok d with
  | Some err => Ok ([], Some err, d)
  | None =>
      '(value, err, d) ← get d key (getSeq d) ro;
      let value := if RHasFlag RFDontCopyBuffer ro then value else [] ++ value in
      Ok (value, err, d)
  end.

End Read.

(** Modelled from the spec: db_snapshot.go is not part of the sources at
    hand. "acquire() → seq=last_seq; release(s) removes s". *)
Record Snapshot := { snap_seq : Z }.

Definition newSnapshot (d : DB) : Snapshot * DB :=
  ({| snap_seq := getSeq d |}, with_snaps (d_snaps d ++ [getSeq d]) d).

Fixpoint remove_one (x : Z) (l : list Z) : list Z :=
  match l with
  | [] => []
  | y :: l' => if x =? y then l' else y :: remove_one x l'
  end.

Definition Snapshot_Release (p : Snapshot) (d : DB) : DB :=
  with_snaps (remove_one (snap_seq p) (d_snaps d)) d.

(** An iterator is either the empty iterator that only carries an error
    ([iterator.NewEmptyIterator]) or an iterator of the DB at a sequence
    number. *)
Inductive Iterator :=
| NewEmptyIterator (err : error)
| dbIter (seq : Z) (ro : ReadOptions).

Definition Iterator_Error (it : Iterator) : option error :=
  match it with
  | NewEmptyIterator err => Some err
  | dbIter _ _ => None
  end.

Definition Iterator_Next (it : Iterator) : bool :=
  match it with
  | NewEmptyIterator _ => false
  | dbIter _ _ => true
  end.

Definition NewIterator (d : DB) (ro : ReadOptions) : Iterator * DB :=
  match ok d with
  | Some err => (NewEmptyIterator err, d)
  | None =>
      let '(p, d) := newSnapshot d in
      let it := dbIter (snap_seq p) ro in
      (it, Snapshot_Release p d)
  end.

Definition GetSnapshot (d : DB) : option Snapshot * option error * DB :=
  match ok d with
  | Some err => (None, Some err, d)
  | None => let '(p, d) := newSnapshot d in (Some p, None, d)
  end.

(** *** Properties: [GetProperty] *)

(** [fmt.Scanf("%d%s", &level, &rest)] reads the standard input of the
    process. The scanner skips blanks but stops at a newline, reads a run of
    decimal digits into [level], and then looks for a token for [rest]; the
    count it returns is the number of items it could fill. The result is
    that count, the level, and what is left of the standard input. The
    standard input is no rune scanner, so the character that the scanner
    looked at last without taking it is lost with the scanner ([lose]). The
    input is taken byte by byte: the blanks are the ASCII ones. *)
Definition isSpace (c : ascii) : bool :=
  existsb (Ascii.eqb c) [" "; "009"; "010"; "011"; "012"; "013"]%char.

Definition isDigit (c : ascii) : bool :=
  (48 <=? nat_of_ascii c)%nat && (nat_of_ascii c <=? 57)%nat.

Fixpoint SkipSpace (l : list ascii) : bool * list ascii :=
  match l with
  | [] => (true, [])
  | c :: l' =>
      if Ascii.eqb c "010" then (false, l')
      else if isSpace c then SkipSpace l'
      else (true, l)
  end.

Fixpoint span (f : ascii -> bool) (l : list ascii) : list ascii * list ascii :=
  match l with
  | [] => ([], [])
  | c :: l' =>
      if f c then let '(a, b) := span f l' in (c :: a, b) else ([], l)
  end.

Definition ParseUint (ds : list ascii) : Z :=
  foldl (fun acc c => 10 * acc + (Z.of_nat (nat_of_ascii c) - 48)) 0 ds.

Definition lose (l : list ascii) : list ascii := drop 1 l.

Definition Scanf_d_s (stdin : string) : Z * Z * string :=
  match SkipSpace (list_ascii_of_string stdin) with
  | (false, rest) => (0, 0, string_of_list_ascii rest)
  | (true, l) =>
      let '(ds, rest) := span isDigit l in
      if bool_decide (ds = []) then (0, 0, string_of_list_ascii (lose rest))
      else if 2 ^ 64 <=? ParseUint ds then (0, 0, string_of_list_ascii (lose rest))
      else
        let level := ParseUint ds in
        match SkipSpace rest with
        | (false, rest) => (1, level, string_of_list_ascii rest)
        | (true, []) => (1, level, EmptyString)
        | (true, l') =>
            (2, level,
             string_of_list_ascii (lose (span (fun c => negb (isSpace c)) l').2))
        end
  end.

Definition tt_size (tbls : list tFile) : Z := foldr (fun t acc => t_size t + acc) 0 tbls.

Section Property.
(** The number of levels ([kNumLevels]), the compaction statistics of a
    level ([d.compStats[level].get()]: duration, bytes read, bytes written)
    and the two [fmt.Sprintf] calls with floating-point and quoting verbs are
    taken as given. *)
Variable kNumLevels : Z.
Variable compStats_get : DB -> nat -> Z * Z * Z.
Variable Sprintf_stats : nat -> Z -> Z -> Z -> Z -> Z -> string.
Variable Sprintf_table : tFile -> string.

Definition prefix : string := "leveldb.".

Definition newline : string := String "010" EmptyString.

Definition stats_header : string :=
  "Compactions" +:+ newline +:+
  " Level |   Tables   |    Size(MB)   |    Time(sec)  |    Read(MB)   |   Write(MB)"
    +:+ newline +:+
  "-------+------------+---------------+---------------+---------------+---------------"
    +:+ newline.

(** [v.tables] is an array of [kNumLevels] levels: the levels that the
    loops of [GetProperty] range over, each with its tables. *)
Definition levels (v : version) : list (nat * list tFile) :=
  (fun level => (level, default [] (v !! level))) <$> seq 0 (Z.to_nat kNumLevels).

Definition GetProperty (d : DB) (name : string) (stdin : string)
  : string * option error * string :=
  match ok d with
  | Some err => (EmptyString, Some err, stdin)
  | None =>
      if negb (String.prefix prefix name)
      then (EmptyString, Some (errors_New ("leveldb: GetProperty: unknown property: " +:+ name)), stdin)
      else
        let p := String.substring (String.length prefix)
                   (String.length name - String.length prefix) name in
        let v := stVersion (d_s d) in
        if String.prefix "num-files-at-level" p then
          let '(n, level, stdin) := Scanf_d_s stdin in
          if negb (n =? 1) || (kNumLevels <=? level)
          then (EmptyString, Some (errors_New ("leveldb: GetProperty: invalid property: " +:+ name)), stdin)
          else (pretty (tLen level v), None, stdin)
        else if String.eqb p "stats" then
          (foldl (fun value '(level, tbls) =>
                    let '(duration, read, write) := compStats_get d level in
                    if (length tbls =? 0)%nat && (duration =? 0) then value
                    else value +:+ Sprintf_stats level (Z.of_nat (length tbls))
                                     (tt_size tbls) duration read write)
             stats_header (levels v),
           None, stdin)
        else if String.eqb p "sstables" then
          (foldl (fun value '(level, tbls) =>
                    foldl (fun value t => value +:+ Sprintf_table t)
                      (value +:+ "--- level " +:+ pretty level +:+ " ---" +:+ newline)
                      tbls)
             EmptyString (levels v),
           None, stdin)
        else (EmptyString, Some (errors_New ("leveldb: GetProperty: unknown property: " +:+ name)), stdin)
  end.

End Property.

(** *** Sizes: [GetApproximateSizes] *)

(** [v.getApproximateOffset] belongs to version.go and to the table codec
    ("approximate_offset_of(ikey)"), which are given: the offset of an
    internal key in the tables of a version, a [uint64], or an error. *)
Class ApproximateOffset := {
  getApproximateOffset : Storage -> version -> bytes -> outcome Z;
  getApproximateOffset_u64 :
    forall p v k n, getApproximateOffset p v k = Ok n -> 0 <= n < 2 ^ 64
}.

Section Sizes.
Context `{ApproximateOffset}.

(** The loop of [GetApproximateSizes]; [sizes] is the slice being built. *)
Fixpoint approximate_sizes (p : Storage) (v : version) (ranges : list Range)
  (sizes : list Z) : outcome (list Z) :=
  match ranges with
  | [] => Ok sizes
  | r :: ranges' =>
      let min := newIKey (Start r) kMaxSeq tSeek in
      let max := newIKey (Limit r) kMaxSeq tSeek in
      start ← getApproximateOffset p v min;
      limit ← getApproximateOffset p v max;
      let size := if start <=? limit then u64 (limit - start) else 0 in
      approximate_sizes p v ranges' (sizes ++ [size])
  end.

Definition GetApproximateSizes (d : DB) (ranges : list Range) : outcome (list Z) :=
  _ ← try (ok d);
  let v := stVersion (d_s d) in
  approximate_sizes (stor (d_s d)) v ranges [].

End Sizes.

(** *** Manual compaction and closing: [CompactRange], [Close] *)

(** The cases of the first [select] of [CompactRange]. *)
Inductive select_case :=
| case_closeCh
| case_compErrCh (err : error)
| case_compReqCh.

(** The cases that can proceed. The compaction worker takes requests until
    the DB is closed; the compaction-error goroutine offers its error while
    it has one. *)
Definition ready (d : DB) : list select_case :=
  (if d_closeCh d then [case_closeCh] else [])
    ++ (match d_compErrCh d with Some err => [case_compErrCh err] | None => [] end)
    ++ (if d_closeCh d then [] else [case_compReqCh]).

(** A [select] proceeds with one of the ready cases; which one is up to the
    runtime ([pick]). *)
Definition select {A} (cases : list A) (pick : nat) : option A :=
  cases !! (pick `mod` length cases)%nat.

(** [CompactRange]: [Ok] is the nil error. After the request is handed
    over, the worker signals its completion on [cch] unless the DB is closed
    first. *)
Definition CompactRange (d : DB) (r : Range) (pick : nat) : outcome DB :=
  _ ← try (ok d);
  let req := {| cr_level := -1; cr_min := Start r; cr_max := Limit r |} in
  match select (ready d) pick with
  | Some case_closeCh => Err ErrClosed
  | Some (case_compErrCh err) => Err err
  | Some case_compReqCh =>
      let d := with_compReqCh (d_compReqCh d ++ [req]) d in
      if d_closeCh d then Err ErrClosed else Ok d
  | None => Panic "select: no case can proceed"
  end.

Definition Close (d : DB) : option error * DB :=
  let '(first, d) := setClosed d in
  if negb first then (Some ErrClosed, d)
  else
    let err := d_compErrCh d in
    let d := with_closeCh true d in
    let d := if d_journal d then with_journal false d else d in
    let d := with_s (session_close (d_s d)) d in
    match d_closer d with
    | Some err1 => (if err is None then err1 else err, d)
    | None => (err, d)
    end.

(** ** The option setter of an open DB (iOptions) *)

(** [GetOptionsSetter] returns [d.s.o], whose methods act on the session. *)
Definition SetComparer (s : session) : option error * session :=
  (Some opt_ErrNotAllowed, s).

Section Setter.
(** [cache.SetCapacity] belongs to package cache, which is given: the cache
    once its capacity was set. *)
Variable Cache_SetCapacity : Z -> Cache -> Cache.

Definition SetMaxOpenFiles (max : Z) (s : session) : option error * session :=
  let '(err, opts) := Options_SetMaxOpenFiles max (o s) in
  match err with
  | Some _ => (err, s)
  | None =>
      (None, with_tops_cache (Cache_SetCapacity max (tops_cache s)) (with_o opts s))
  end.

Definition DB_SetMaxOpenFiles (d : DB) (max : Z) : option error * DB :=
  let '(err, s) := SetMaxOpenFiles max (d_s d) in (err, with_s s d).

End Setter.

(** The old block cache is purged too; no handle of the session refers to
    it any more. *)
Definition SetBlockCache (cache : option Cache) (s : session) : option error * session :=
  let '(err, opts) := Options_SetBlockCache cache (o s) in
  match err with
  | Some _ => (err, s)
  | None => (None, with_tops_cache (Cache_Purge (tops_cache s)) (with_o opts s))
  end.

(** ** What the spec says a read resolves to *)

Section Resolution.
Context `{Comparer}.

(** Every record a read can see: those of the two memtables and of the
    tables of the current version. *)
Definition table_records (p : Storage) (t : tFile) : list (bytes * bytes) :=
  match GetFile TypeTable (t_num t) p with
  | Some f => it_recs (tops_newIterator f)
  | None => []
  end.

Definition records_of (d : DB) : list (bytes * bytes) :=
  default [] (d_mem d) ++ default [] (d_frozenMem d)
    ++ concat (table_records (stor (d_s d)) <$> concat (stVersion (d_s d))).

(** "the unique record with maximum seq ≤ s" of user key [K]. *)
Definition newest_at (recs : list (bytes * bytes)) (K : bytes) (s : Z)
  : option (Z * vType * bytes) :=
  foldl (fun best '(k, v) =>
           match parseIkey k with
           | Some (uk, seq, t) =>
               if (Compare uk K =? 0) && (seq <=? s) then
                 match best with
                 | Some (bseq, _, _) => if bseq <? seq then Some (seq, t, v) else best
                 | None => Some (seq, t, v)
                 end
               else best
           | None => best
           end) None recs.

(** "Get(K)@s returns the value of the unique record with maximum seq ≤ s,
    or NotFound if that record is a tombstone or no such record exists." *)
Definition spec_Get (recs : list (bytes * bytes)) (K : bytes) (s : Z)
  : bytes * option error :=
  match newest_at recs K s with
  | Some (_, tVal, v) => (v, None)
  | _ => ([], Some ErrNotFound)
  end.

End Resolution.

(** ** Sample states *)

Module sample.

#[export] Existing Instance BytewiseComparer.

Definition empty_storage : Storage :=
  {| st_files := []; st_current := None; st_lock_err := None; st_write_err := None |}.

Definition options (flags : list OptionsFlag) : Options :=
  {| Flag := flags; WriteBuffer := 4194304; MaxOpenFiles := 1000; BlockCache := None |}.

Definition ro : ReadOptions := {| RFlag := [] |}.

Definition table (num : Z) (recs : list (bytes * bytes)) : File :=
  new_file TypeTable num (Table recs None).

Definition journal (num : Z) (es : list jentry) : File :=
  new_file TypeJournal num (Journal es).

Definition storage (fs : list File) : Storage :=
  {| st_files := fs; st_current := None; st_lock_err := None; st_write_err := None |}.

(** A fresh session on a storage, with its counters at zero. *)
Definition fresh_session (p : Storage) : session :=
  {| stor := p; o := options []; tops_cache := NewLRUCache 1000;
     stFileNum := 0; stJournalNum := 0; stPrevJournalNum := 0;
     stSeq := 0; manifest := None; stVersion := []; s_dropped := [] |}.

(** An open DB with the given memtables and last sequence number. *)
Definition db (s : session) (seq : Z) (mem : memdb.DB) (frozen : option memdb.DB) : DB :=
  {| d_seq := seq; d_s := s; d_mem := Some mem; d_frozenMem := frozen;
     d_journal := true; d_journalFile := Some 1;
     d_frozenJournalFile := None; d_frozenSeq := 0;
     d_snaps := []; d_compCh := false; d_compReqCh := [];
     d_compErrCh := None; d_closeCh := false; d_closed := 0;
     d_closer := None |}.

(** [Put("k","v1")] at sequence 1, a rotation of the memtable, then
    [Delete("k")] at sequence 2: the tombstone is in the active memtable and
    the value it hides in the frozen one. *)
Definition db_tombstone : DB :=
  db (fresh_session empty_storage) 2
    (memdb.Put (newIKey (B "k") 2 tDel) [] memdb.New)
    (Some (memdb.Put (newIKey (B "k") 1 tVal) (B "v1") memdb.New)).

(** The same, with the hidden value flushed to a table of level 0. *)
Definition db_tombstone_table : DB :=
  db {| stor := storage [table 5 [(newIKey (B "k") 1 tVal, B "v1")]];
        o := options []; tops_cache := NewLRUCache 1000;
        stFileNum := 6; stJournalNum := 0; stPrevJournalNum := 0;
        stSeq := 1; manifest := None;
        stVersion := [[newTFile 5 10 (newIKey (B "k") 1 tVal) (newIKey (B "k") 1 tVal)]];
        s_dropped := [] |}
    2 (memdb.Put (newIKey (B "k") 2 tDel) [] memdb.New) None.

(** A DB with one table at level 0 and none at level 1. *)
Definition db_one_table : DB :=
  db {| stor := storage [table 5 [(newIKey (B "k") 1 tVal, B "v1")]];
        o := options []; tops_cache := NewLRUCache 1000;
        stFileNum := 6; stJournalNum := 0; stPrevJournalNum := 0;
        stSeq := 1; manifest := None;
        stVersion := [[newTFile 5 10 (newIKey (B "k") 1 tVal) (newIKey (B "k") 1 tVal)]; []];
        s_dropped := [] |}
    1 memdb.New None.

(** Two tables: the older one holds the larger sequence number, as after a
    compaction that rewrote older records into a new file. *)
Definition storage_two_tables : Storage :=
  storage [table 1 [(newIKey (B "k") 20 tVal, B "y")];
           table 2 [(newIKey (B "j") 9 tVal, B "x")]].

(** A storage whose only file carries the largest file number there is. *)
Definition storage_last_number : Storage :=
  storage [table (2 ^ 64 - 1) [(newIKey (B "j") 9 tVal, B "x")]].

Definition batch_a : bytes :=
  batch.encode {| batch.seq := 1; batch.recs := [(tVal, B "a", B "1")] |}.

Definition batch_b : bytes :=
  batch.encode {| batch.seq := 2; batch.recs := [(tVal, B "b", B "2")] |}.

(** A journal with a torn record between two intact ones. *)
Definition journal_torn : list jentry :=
  [JRecord batch_a; JTorn 7; JRecord batch_b].


(** A DB that is open on an empty storage, before any replay. *)
Definition db_fresh : DB := db (fresh_session empty_storage) 0 memdb.New None.

(** The storage that [Open] leaves when it creates a database. *)
Definition storage_existing : Storage :=
  match Open empty_storage (options [OFCreateIfMissing]) with
  | Ok d => stor (d_s d)
  | _ => empty_storage
  end.

End sample.

(** ** Notions used in the statements *)

Definition is_Ok {A} (r : outcome A) : Prop := exists a, r = Ok a.

(** The probe that [GetApproximateSizes] makes for a boundary of a range. *)
Definition probe `{ApproximateOffset} (d : DB) (key : bytes) : outcome Z :=
  getApproximateOffset (stor (d_s d)) (stVersion (d_s d)) (newIKey key kMaxSeq tSeek).

(** The bytes lost with a damaged entry of a journal; [None] for an intact
    record. *)
Definition damaged (e : jentry) : option Z :=
  match e with
  | JRecord _ => None
  | JBadChunk n | JTorn n => Some n
  end.

(** A table file on which an iterator finds a first and a last key. *)
Definition readable_table (f : File) : bool :=
  bool_decide (Type_ f = TypeTable)
  && bool_decide (is_Some (iter_First (tops_newIterator f)))
  && bool_decide (is_Some (iter_Last (tops_newIterator f))).

(** The newest table of a storage: the readable table with the largest
    file number. *)
Definition newest_table (p : Storage) : option File :=
  list.last (filter (fun f => readable_table f = true) (files_sort (GetFiles TypeAll p))).

Definition newest_table_seq (p : Storage) : Z :=
  match newest_table p with
  | Some f => largest_seq (iter_keys (tops_newIterator f))
  | None => 0
  end.

(** The keys of the records of all table files of a storage. *)
Definition all_table_keys (p : Storage) : list bytes :=
  concat ((fun f => iter_keys (tops_newIterator f))
            <$> filter (fun f => Type_ f = TypeTable) (files_sort (GetFiles TypeAll p))).

(** A journal file none of whose entries is an intact record. *)
Definition no_record (f : File) : Prop :=
  Forall (fun e => is_Some (damaged e)) (journal_entries f).


(** The last sequence number of a DB that was opened. *)
Definition seq_after (r : outcome DB) : outcome Z :=
  match r with
  | Ok d => Ok (d_seq d)
  | Err e => Err e
  | Panic msg => Panic msg
  end.


(** The next file number and the file numbers of the storage of a session. *)
Definition numbers_after (r : outcome session) : outcome (Z * list Z) :=
  match r with
  | Ok s => Ok (stFileNum s, Num <$> st_files (stor s))
  | Err e => Err e
  | Panic msg => Panic msg
  end.

(** A sample of [getApproximateOffset]: the sizes of the tables that lie
    entirely before the key. *)
#[refine] Instance sample_offsets : ApproximateOffset := {|
  getApproximateOffset p v k :=
    Ok (u64 (foldr (fun t acc =>
                      if @iCompare BytewiseComparer (t_max t) k <? 0
                      then t_size t + acc else acc) 0 (concat v)))
|}.
Proof.
  intros p v k n [= <-]. unfold u64. apply Z.mod_pos_bound. reflexivity.
Defined.

(** ** The test harnesses (corrupt_test.go, sorted_test.go) *)

(** A Go [int] (64 bits, signed) after an arithmetic operation. *)
Definition i64 (z : Z) : Z := (z + 2 ^ 63) mod 2 ^ 64 - 2 ^ 63.

(** The file loop of [dbCorruptHarness.corrupt]: the file of the wanted
    type with the largest number, the first of them; [None] is the nil file
    on which the harness stops with [t.Fatalf]. *)
Definition newest_file (fs : list File) : option File :=
  foldl (fun file f =>
           match file with
           | None => Some f
           | Some g => if Num g <? Num f then Some f else file
           end) None fs.

(** The adjustment that [corrupt] makes to [offset] and [n] for a file of
    [m] bytes. *)
Definition clamp (m offset n : Z) : Z * Z :=
  let offset :=
    if offset <? 0
    then (if m <? i64 (- offset) then 0 else i64 (m + offset))
    else offset in
  let offset := if m <? offset then m else offset in
  let n := if m <? i64 (offset + n) then i64 (m - offset) else n in
  (offset, n).

(** [b ^ 0x80] *)
Definition flipb (b : byte) : byte := byte_of_Z (Z.lxor (Z_of_byte b) 128).

(** [for i := 0; i < n; i++ { buf[offset+i] ^= 0x80 }], from [i] on, with
    [count] rounds to go. *)
Fixpoint flip_loop (count : nat) (i offset : Z) (buf : bytes) : outcome bytes :=
  match count with
  | O => Ok buf
  | S count' =>
      b ← index buf (i64 (offset + i));
      flip_loop count' (i64 (i + 1)) offset
        (<[Z.to_nat (i64 (offset + i)) := flipb b]> buf)
  end.

(** [corrupt], from the bytes read from the file to the bytes written
    back. *)
Definition corrupt_buf (buf : bytes) (offset n : Z) : outcome bytes :=
  let m := Z.of_nat (length buf) in
  let '(offset, n) := clamp m offset n in
  flip_loop (Z.to_nat n) 0 offset buf.

(** The bytes of [buf] with those at the positions [o], ..., [o + n - 1]
    flipped. *)
Definition flip_range (o n : nat) (buf : bytes) : bytes :=
  imap (fun k b => if decide (o <= k < o + n)%nat then flipb b else b) buf.

(** The counters of [dbCorruptHarness.check]. *)
Record counters := { ck_n : Z; ck_badk : Z; ck_badv : Z; ck_missed : Z; ck_good : Z }.

Section Check.
(** [fmt.Sscanf(string(key), "%d", &k)], which leaves 0 in [k] when the key
    does not scan, and [tval(k, ctValSize)], the value the harness wrote for
    key [k], are given. *)
Variable Sscanf_d : bytes -> Z.
Variable tval : Z -> bytes.

(** One round of the loop of [check], on the entry under the iterator. *)
Definition check_step (c : counters) (kv : bytes * bytes) : counters :=
  let k := Sscanf_d kv.1 in
  if k <? ck_n c then
    {| ck_n := ck_n c; ck_badk := i64 (ck_badk c + 1); ck_badv := ck_badv c;
       ck_missed := ck_missed c; ck_good := ck_good c |}
  else
    let missed := i64 (ck_missed c + i64 (k - ck_n c)) in
    let n := i64 (k + 1) in
    if negb (bool_decide (kv.2 = tval k)) then
      {| ck_n := n; ck_badk := ck_badk c; ck_badv := i64 (ck_badv c + 1);
         ck_missed := missed; ck_good := ck_good c |}
    else
      {| ck_n := n; ck_badk := ck_badk c; ck_badv := ck_badv c;
         ck_missed := missed; ck_good := i64 (ck_good c + 1) |}.

(** [check(min, max)] over the entries that the iterator yields: the
    counters, and whether the harness reports "good entries number not in
    range". *)
Definition check (entries : list (bytes * bytes)) (min max : Z) : counters * bool :=
  let c := foldl check_step
             {| ck_n := 0; ck_badk := 0; ck_badv := 0; ck_missed := 0; ck_good := 0 |}
             entries in
  (c, (ck_good c <? min) || (max <? ck_good c)).

End Check.

(** [keys[i], keys[j] = keys[j], keys[i]] *)
Definition swap {A} (i j : Z) (l : list A) : outcome (list A) :=
  y ← index l j;
  x ← index l i;
  Ok (<[Z.to_nat j := x]> (<[Z.to_nat i := y]> l)).

(** [make([]string, m)] followed by [copy]. *)
Definition copy_of (m : nat) (src : list string) : list string :=
  take m src ++ replicate (m - length src) EmptyString.

(** The shuffle of [stHarness.test]. [r1 n] and [r2 n] are what the n-th
    calls of [r1.Intn(99999)] and [r2.Intn(99999)] return. *)
Fixpoint shuffle_loop (times n : nat) (r1 r2 : nat -> Z) (m : Z)
  (keys values : list string) : outcome (list string * list string) :=
  match times with
  | O => Ok (keys, values)
  | S times' =>
      if m =? 0 then Panic "integer divide by zero"
      else
        let i := Z.rem (r1 n) m in
        let j := Z.rem (r2 n) m in
        if i =? j then shuffle_loop times' (S n) r1 r2 m keys values
        else
          keys ← swap i j keys;
          values ← swap i j values;
          shuffle_loop times' (S n) r1 r2 m keys values
  end.

Definition shuffle (r1 r2 : nat -> Z) (h_keys h_values : list string)
  : outcome (list string * list string) :=
  let m := Z.of_nat (length h_keys) in
  let times := i64 (m * 2) in
  shuffle_loop (Z.to_nat times) 0 r1 r2 m
    (copy_of (length h_keys) h_keys) (copy_of (length h_keys) h_values).

(** ** Further notions used in the statements *)

(** The handle that [Recover] makes for a readable table file. *)
Definition tfile_of (f : File) : tFile :=
  newTFile (Num f) (content_size (f_content f))
    (default [] (iter_First (tops_newIterator f)))
    (default [] (iter_Last (tops_newIterator f))).

(** The readable tables of a storage, by file number. *)
Definition readable_tables (p : Storage) : list File :=
  filter (fun f => readable_table f = true) (files_sort (st_files p)).

(** A table file on which [Recover] gives up. *)
Definition broken_table (f : File) : Prop :=
  Type_ f = TypeTable
  /\ (is_Some (f_size_err f)
      \/ (readable_table f = false /\ is_Some (iter_Error (tops_newIterator f)))).

(** What the droppers are told for the damaged entries of a journal. *)
Definition drops (file : File) (es : list jentry) : list (Z * Z) :=
  (fun n => (Num file, n)) <$> omap damaged es.




(** A record of a memtable for the user key [key], of kind value. *)
Definition value_record `{Comparer} (key value : bytes) (m : memdb.DB) : Prop :=
  exists rkey uk seq,
    (rkey, value) ∈ m /\ parseIkey rkey = Some (uk, seq, tVal) /\ Compare uk key = 0.

(** No record of a memtable is for the user key [key]. *)
Definition no_record_for `{Comparer} (key : bytes) (m : memdb.DB) : Prop :=
  forall rkey value uk seq t,
    (rkey, value) ∈ m -> parseIkey rkey = Some (uk, seq, t) -> Compare uk key <> 0.

(** A call that does not panic. *)
Definition no_panic {A} (r : outcome A) : Prop := forall msg, r <> Panic msg.

(** ** Further sample states *)

Module fixture.

#[local] Existing Instance BytewiseComparer.

(** A storage whose CURRENT names a manifest that does not read as one. *)
Definition storage_bad_manifest : Storage :=
  {| st_files := [new_file TypeManifest 1 (Opaque (B "junk"))];
     st_current := Some 1; st_lock_err := None; st_write_err := None |}.

(** A storage with a table whose size cannot be queried. *)
Definition storage_broken_table : Storage :=
  sample.storage
    [sample.table 1 [(newIKey (B "k") 1 tVal, B "v1")];
     {| Type_ := TypeTable; Num := 2; f_content := Table [] None;
        f_size_err := Some io_ErrUnexpectedEOF; f_open_err := None |}].

(** An open DB whose memtable holds the value "v1" of the key "k". *)
Definition db_with_value : DB :=
  sample.db (sample.fresh_session sample.empty_storage) 1
    (memdb.Put (newIKey (B "k") 1 tVal) (B "v1") memdb.New) None.

(** A [getApproximateOffset] that fails on the user key "bad". *)
Definition failing_offsets : ApproximateOffset.
Proof.
  refine {| getApproximateOffset p v k :=
              if bool_decide (ukey k = B "bad") then Err (ErrCorrupted "table")
              else Ok 0 |}.
  intros p v k n. destruct (bool_decide _); [discriminate|]. intros [= <-]. lia.
Defined.

(** The decimal digit that a one-byte key holds, 0 for any other key. *)
Definition scan_digit (key : bytes) : Z :=
  match key with
  | [b] => if isDigit (ascii_of_byte b) then Z_of_byte b - 48 else 0
  | _ => 0
  end.

End fixture.

(** * Properties *)

(** ** Reasoning about outcomes *)

Lemma bind_Ok {A C} (m : outcome A) (k : A -> outcome C) (c : C) :
  m ≫= k = Ok c -> exists a, m = Ok a /\ k a = Ok c.
Proof. destruct m; simpl; intros; try discriminate; eauto. Qed.

Lemma try_Ok (err : option error) : try err = Ok tt -> err = None.
Proof. destruct err; [discriminate|reflexivity]. Qed.

(** Splits a hypothesis [x ← m; k = Ok c] into [m = Ok a] and [k a = Ok c]. *)
Ltac inv_bind H :=
  let a := fresh "a" in
  let Ha := fresh "H" a in
  apply bind_Ok in H as (a & Ha & H).

(** ** Reads *)

Section ReadFacts.
Context `{Comparer}.

(** A tombstone found in a memtable makes [memGet] answer "not here", with
    [ErrNotFound] left in [err]: the caller goes on to the next source. *)
Lemma memGet_tombstone m key ikey rkey value uk seq :
  memdb.Find ikey m = (rkey, value, None) ->
  parseIkey rkey = Some (uk, seq, tDel) ->
  memGet m key ikey = (false, [], Some ErrNotFound).
Proof.
  intros Hfind Hparse. unfold memGet. rewrite Hfind, Hparse.
  rewrite bool_decide_eq_true_2 by reflexivity.
  now rewrite orb_true_r.
Qed.

(** A value found in the active memtable is returned as it is. *)
Lemma get_memtable_value d mem key seq ro rkey value uk rseq :
  d_mem d = Some mem ->
  memdb.Find (newIKey key seq tSeek) mem = (rkey, value, None) ->
  parseIkey rkey = Some (uk, rseq, tVal) ->
  Compare uk key = 0 ->
  get d key seq ro = Ok (value, None, d).
Proof.
  intros Hmem Hfind Hparse Hcmp. unfold get, getMem, memGet.
  rewrite Hmem, Hfind, Hparse, Hcmp. reflexivity.
Qed.

End ReadFacts.

Section Concrete.
#[local] Existing Instance BytewiseComparer.

(** C1. At the state reached by [Put("k","v1")], a rotation of the memtable
    and [Delete("k")], the record of "k" with the largest sequence number
    not above the snapshot is the tombstone, so the read resolves to
    NotFound; [Get] goes past the tombstone of the active memtable and
    returns the value "v1" of the frozen memtable, without an error. The same
    happens when the hidden value lies in a table of the version. *)
Theorem Get_returns_value_under_tombstone :
  Get sample.db_tombstone (B "k") sample.ro
    = Ok (B "v1", None, sample.db_tombstone)
  /\ spec_Get (records_of sample.db_tombstone) (B "k") (getSeq sample.db_tombstone)
     = ([], Some ErrNotFound)
  /\ Get sample.db_tombstone_table (B "k") sample.ro
     = Ok (B "v1", None, sample.db_tombstone_table)
  /\ spec_Get (records_of sample.db_tombstone_table) (B "k")
       (getSeq sample.db_tombstone_table)
     = ([], Some ErrNotFound).
Proof. repeat split; vm_compute; reflexivity. Qed.

(** C10. On a storage without any file, [Recover] (without the strict
    flag) takes its session, finds an empty file list and panics on
    [ff[len(ff)-1]]: it returns neither a DB nor an error. *)
Theorem Recover_empty_storage_panics :
  Recover sample.empty_storage (sample.options []) = Panic "index out of range"
  /\ files_sort (getFiles TypeAll (sample.fresh_session sample.empty_storage)) = [].
Proof. split; vm_compute; reflexivity. Qed.

End Concrete.

(** ** Properties of the DB *)

Section PropertyFacts.
Variable kNumLevels : Z.
Variable compStats_get : DB -> nat -> Z * Z * Z.
Variable Sprintf_stats : nat -> Z -> Z -> Z -> Z -> Z -> string.
Variable Sprintf_table : tFile -> string.

Local Abbreviation GetProperty' :=
  (GetProperty kNumLevels compStats_get Sprintf_stats Sprintf_table).

(** The level of "num-files-at-level" is whatever the standard input holds:
    two names with different numeric suffixes get the same count. *)
Lemma GetProperty_level_ignores_name d a b stdin :
  let name x := ("leveldb.num-files-at-level" +:+ x)%string in
  (GetProperty' d (name a) stdin).1.1 = (GetProperty' d (name b) stdin).1.1
  /\ (GetProperty' d (name a) stdin).2 = (GetProperty' d (name b) stdin).2.
Proof.
  assert (Hpre : forall x, String.prefix prefix
                   ("leveldb.num-files-at-level" +:+ x) = true) by reflexivity.
  assert (Hsub : forall x,
             String.prefix "num-files-at-level"
               (String.substring (String.length prefix)
                  (String.length ("leveldb.num-files-at-level" +:+ x)
                   - String.length prefix)
                  ("leveldb.num-files-at-level" +:+ x)) = true)
    by (intros [|c x]; vm_compute; reflexivity).
  intros name. unfold name, GetProperty.
  destruct (ok d); [split; reflexivity|].
  rewrite !Hpre, !Hsub. simpl negb. cbv iota.
  destruct (Scanf_d_s stdin) as [[n level] rest].
  destruct (negb (n =? 1) || (kNumLevels <=? level)); split; reflexivity.
Qed.

End PropertyFacts.

Section ConcreteProperty.
#[local] Existing Instance BytewiseComparer.

(** C4. The DB has one table at level 0 and none at level 1. With nothing
    on the standard input, the property "leveldb.num-files-at-level0" is
    refused as invalid although level 0 exists; with "1" on the standard
    input the same name is answered with the count of level 1. The numeric
    suffix of the name plays no part. *)
Theorem GetProperty_num_files_reads_stdin :
  let GetProperty' :=
    GetProperty 7 (fun _ _ => (0, 0, 0)) (fun _ _ _ _ _ _ => EmptyString) (fun _ => EmptyString) in
  tLen 0 (stVersion (d_s sample.db_one_table)) = 1
  /\ tLen 1 (stVersion (d_s sample.db_one_table)) = 0
  /\ GetProperty' sample.db_one_table "leveldb.num-files-at-level0" EmptyString
     = (EmptyString, Some (errors_New
                    "leveldb: GetProperty: invalid property: leveldb.num-files-at-level0"),
        EmptyString)
  /\ GetProperty' sample.db_one_table "leveldb.num-files-at-level0" "1"
     = ("0", None, EmptyString).
Proof. repeat split; vm_compute; reflexivity. Qed.

End ConcreteProperty.

(** ** Closing *)

Lemma Close_sets_closed d : isClosed (Close d).2 = true.
Proof.
  unfold Close, setClosed, isClosed.
  destruct (d_closed d =? 0) eqn:E.
  - destruct d as [? ? ? ? jr ? ? ? ? ? ? ? ? ? cl]; cbn.
    destruct jr, cl; reflexivity.
  - cbn. now rewrite E.
Qed.

Lemma ok_closed d : isClosed d = true -> ok d = Some ErrClosed.
Proof. unfold ok. now intros ->. Qed.

(** C6. After [Close], whatever the state of the DB was, every public
    call is refused with [ErrClosed] and leaves the DB as it is: [Get],
    [GetSnapshot], [NewIterator] (whose iterator is the empty iterator that
    reports [ErrClosed]), [GetProperty], [GetApproximateSizes],
    [CompactRange] and a second [Close]. A pending compaction error, a
    failing closer or an unknown property name do not change the answer. *)
Theorem closed_DB_refuses_calls `{Comparer} `{ApproximateOffset}
  (kNumLevels : Z) (compStats_get : DB -> nat -> Z * Z * Z)
  (Sprintf_stats : nat -> Z -> Z -> Z -> Z -> Z -> string)
  (Sprintf_table : tFile -> string) (d : DB) :
  let d' := (Close d).2 in
  (forall key ro, Get d' key ro = Ok ([], Some ErrClosed, d'))
  /\ GetSnapshot d' = (None, Some ErrClosed, d')
  /\ (forall ro, NewIterator d' ro = (NewEmptyIterator ErrClosed, d')
                 /\ Iterator_Error (NewIterator d' ro).1 = Some ErrClosed
                 /\ Iterator_Next (NewIterator d' ro).1 = false)
  /\ (forall name stdin,
        GetProperty kNumLevels compStats_get Sprintf_stats Sprintf_table d' name stdin
        = (EmptyString, Some ErrClosed, stdin))
  /\ (forall ranges, GetApproximateSizes d' ranges = Err ErrClosed)
  /\ (forall r pick, CompactRange d' r pick = Err ErrClosed)
  /\ Close d' = (Some ErrClosed, d').
Proof.
  intros d'.
  assert (Hc : isClosed d' = true) by apply Close_sets_closed.
  pose proof (ok_closed _ Hc) as Hok.
  repeat split.
  - intros. unfold Get. now rewrite Hok.
  - unfold GetSnapshot. now rewrite Hok.
  - unfold NewIterator. now rewrite Hok.
  - unfold NewIterator. now rewrite Hok.
  - unfold NewIterator. now rewrite Hok.
  - intros. unfold GetProperty. now rewrite Hok.
  - intros. unfold GetApproximateSizes. now rewrite Hok.
  - intros. unfold CompactRange. now rewrite Hok.
  - unfold Close, setClosed. unfold isClosed in Hc.
    destruct (d_closed d' =? 0); [discriminate|reflexivity].
Qed.

(** ** The option setter *)

(** [SetMaxOpenFiles] validates the new cap, records it in the options and
    hands it to [SetCapacity] of the cache of open tables: the cache after
    the call is what [SetCapacity] made of the cache before. [Purge] is not
    called; [SetBlockCache] is the setter that calls it. A cap that the
    options refuse leaves the session as it is. *)
Lemma SetMaxOpenFiles_calls_SetCapacity (SetCapacity : Z -> Cache -> Cache)
  (s : session) (max : Z) :
  (max < 1 -> SetMaxOpenFiles SetCapacity max s = (Some opt_ErrInvalid, s))
  /\ (1 <= max ->
      exists s', SetMaxOpenFiles SetCapacity max s = (None, s')
                 /\ MaxOpenFiles (o s') = max
                 /\ tops_cache s' = SetCapacity max (tops_cache s)).
Proof.
  unfold SetMaxOpenFiles, Options_SetMaxOpenFiles. split; intros Hmax.
  - apply Z.ltb_lt in Hmax. now rewrite Hmax.
  - apply Z.ltb_ge in Hmax. rewrite Hmax. eexists. repeat split.
Qed.

(** ** Approximate sizes *)

Section SizesFacts.
Context `{ApproximateOffset}.

(** What [GetApproximateSizes] promises for one range and its size. *)
Local Abbreviation size_of d :=
  (fun (r : Range) (size : Z) =>
     exists start limit,
       probe d (Start r) = Ok start /\ probe d (Limit r) = Ok limit
       /\ size = (if bool_decide (start <= limit) then limit - start else 0)
       /\ 0 <= size < 2 ^ 64).

Lemma approximate_sizes_spec d ranges acc sizes :
  approximate_sizes (stor (d_s d)) (stVersion (d_s d)) ranges acc = Ok sizes ->
  exists new, sizes = acc ++ new /\ Forall2 (size_of d) ranges new.
Proof.
  revert acc. induction ranges as [|r ranges IH]; intros acc; simpl.
  - intros [= <-]. exists []. split; [now rewrite app_nil_r|constructor].
  - unfold mbind, outcome_bind.
    destruct (getApproximateOffset _ _ (newIKey (Start r) _ _)) as [start| |] eqn:Es;
      try discriminate.
    destruct (getApproximateOffset _ _ (newIKey (Limit r) _ _)) as [limit| |] eqn:El;
      try discriminate.
    intros Hrec. apply IH in Hrec as (new & -> & Hall).
    eexists (_ :: new). split; [now rewrite <- app_assoc|].
    constructor; [|exact Hall].
    exists start, limit. unfold probe. rewrite Es, El.
    pose proof (getApproximateOffset_u64 _ _ _ _ Es).
    pose proof (getApproximateOffset_u64 _ _ _ _ El).
    repeat split; try reflexivity.
    + destruct (Z.leb_spec start limit).
      * rewrite bool_decide_eq_true_2 by assumption.
        unfold u64. apply Z.mod_small. lia.
      * rewrite bool_decide_eq_false_2 by lia. reflexivity.
    + destruct (start <=? limit); [unfold u64; apply Z.mod_pos_bound|]; lia.
    + destruct (start <=? limit); [unfold u64; apply Z.mod_pos_bound|]; lia.
Qed.

Lemma approximate_sizes_total d ranges acc :
  Forall (fun r => is_Ok (probe d (Start r)) /\ is_Ok (probe d (Limit r))) ranges ->
  is_Ok (approximate_sizes (stor (d_s d)) (stVersion (d_s d)) ranges acc).
Proof.
  intros Hall. revert acc.
  induction Hall as [|r ranges [[start Hs] [limit Hl]] _ IH]; intros acc; simpl.
  - now exists acc.
  - unfold probe in Hs, Hl. rewrite Hs, Hl. simpl. apply IH.
Qed.

(** C8. [GetApproximateSizes] probes the start and the limit of every range
    with the internal key made of the boundary, [kMaxSeq] and [tSeek]. When it
    returns sizes, there is one per range, in order, each the limit offset
    minus the start offset when the limit is not below the start and 0
    otherwise, so never negative and never wrapped. On an open DB whose probes
    all succeed it does return sizes. *)
Theorem GetApproximateSizes_sizes (d : DB) (ranges : list Range) :
  (forall sizes, GetApproximateSizes d ranges = Ok sizes ->
     length sizes = length ranges /\ Forall2 (size_of d) ranges sizes)
  /\ (ok d = None ->
      Forall (fun r => is_Ok (probe d (Start r)) /\ is_Ok (probe d (Limit r))) ranges ->
      is_Ok (GetApproximateSizes d ranges)).
Proof.
  unfold GetApproximateSizes. split.
  - intros sizes. destruct (ok d); simpl; [discriminate|].
    intros Hrec. apply approximate_sizes_spec in Hrec as (new & -> & Hall).
    simpl. split; [symmetry; eapply Forall2_length|]; exact Hall.
  - intros -> Hall. simpl. now apply approximate_sizes_total.
Qed.

End SizesFacts.

Lemma GetApproximateSizes_sizes_witness :
  let ranges := [{| Start := B "a"; Limit := B "z" |}; {| Start := B "z"; Limit := B "a" |}] in
  GetApproximateSizes sample.db_one_table ranges = Ok [10; 0]
  /\ length [10; 0] = length ranges
  /\ is_Ok (GetApproximateSizes sample.db_one_table ranges).
Proof.
  intros ranges.
  split; [reflexivity|].
  split.
  - exact (proj1 (proj1 (GetApproximateSizes_sizes sample.db_one_table ranges)
                    [10; 0] eq_refl)).
  - apply (proj2 (GetApproximateSizes_sizes sample.db_one_table ranges)).
    + reflexivity.
    + repeat constructor; eexists; reflexivity.
Defined.

(** ** Opening *)

Section OpenFacts.
Context `{Comparer}.

Lemma recover_no_current s :
  st_current (stor s) = None -> recover s = Err os_ErrNotExist.
Proof. unfold recover. now intros ->. Qed.

(** C5. Take a storage whose lock can be taken. When it holds no database
    (CURRENT names no manifest): with [OFCreateIfMissing], [Open] creates the
    manifest and opens the DB on it, and on a storage without files that can
    be written it returns a DB; without the flag it returns the not-exist
    error. When it holds a database (the manifest is replayed without
    error) and [OFErrorIfExist] is set, [Open] returns [os.ErrExist]. *)
Theorem Open_flags (p : Storage) (opts : Options) :
  st_lock_err p = None ->
  (st_current p = None ->
     (HasFlag OFCreateIfMissing opts = true ->
        Open p opts = (s ← newSession p opts; s' ← create s; openDB s')
        /\ (st_files p = [] -> st_write_err p = None ->
            exists db, Open p opts = Ok db
                       /\ st_current (stor (d_s db)) = Some 0
                       /\ ok db = None))
     /\ (HasFlag OFCreateIfMissing opts = false ->
           Open p opts = Err os_ErrNotExist))
  /\ (forall s s', newSession p opts = Ok s -> recover s = Ok s' ->
        HasFlag OFErrorIfExist opts = true ->
        Open p opts = Err os_ErrExist).
Proof.
  intros Hlock. split.
  - intros Hcur.
    assert (Hrec : forall s, newSession p opts = Ok s -> recover s = Err os_ErrNotExist).
    { unfold newSession. rewrite Hlock. intros s [= <-]. now apply recover_no_current. }
    split.
    + intros Hflag.
      assert (Hopen : Open p opts = (s ← newSession p opts; s' ← create s; openDB s')).
      { unfold Open. destruct (newSession p opts) as [s| |] eqn:Es; try reflexivity.
        simpl. rewrite (Hrec s eq_refl). simpl.
        assert (o s = opts) as -> by (unfold newSession in Es; rewrite Hlock in Es;
                                       now injection Es as <-).
        now rewrite Hflag. }
      split; [exact Hopen|].
      intros Hfiles Hwrite. rewrite Hopen.
      destruct p as [files cur lock werr]. simpl in *. subst.
      eexists. split; [|split]; [cbv; reflexivity|reflexivity|reflexivity].
    + intros Hflag. unfold Open, newSession. rewrite Hlock. simpl.
      rewrite recover_no_current by assumption. simpl.
      now rewrite Hflag.
  - intros s s' Hs Hr Hflag. unfold Open. rewrite Hs. simpl. rewrite Hr. simpl.
    assert (o s = opts) as -> by (unfold newSession in Hs; rewrite Hlock in Hs;
                                   now injection Hs as <-).
    now rewrite Hflag.
Qed.

End OpenFacts.

(** ** Journal replay *)

Section ReplayFacts.
Context `{Comparer}.

(** Replaying a journal in two parts. *)
Lemma replay_app strict wb file pre post d mem cm :
  replay strict wb file (pre ++ post) d mem cm
  = '(d1, mem1, cm1) ← replay strict wb file pre d mem cm;
    replay strict wb file post d1 mem1 cm1.
Proof.
  revert d mem cm. induction pre as [|e pre IH]; intros d mem cm; [reflexivity|].
  destruct e as [payload|n|n]; simpl.
  - destruct (batch.decode payload) as [bt| |]; simpl; try reflexivity.
    destruct (wb <=? _); [|apply IH].
    destruct (cm_flush _ _ _ _) as [[cm' s3]| |]; simpl; try reflexivity.
    apply IH.
  - destruct strict; [reflexivity|apply IH].
  - destruct strict; [reflexivity|apply IH].
Qed.



(** Damaged entries leave the last sequence number alone. *)
Lemma replay_no_record_seq strict wb file es d mem cm d' mem' cm' :
  Forall (fun e => is_Some (damaged e)) es ->
  replay strict wb file es d mem cm = Ok (d', mem', cm') ->
  d_seq d' = d_seq d.
Proof.
  intros Hall. revert d.
  induction Hall as [|e es [n He] _ IH]; intros d; simpl.
  - now intros [= <- _ _].
  - destruct e as [payload|m|m]; simpl in He; [discriminate| |];
      simpl; destruct strict; try discriminate;
      intros Hr; apply IH in Hr; exact Hr.
Qed.

End ReplayFacts.

(** ** Recovery *)

#[local] Instance file_le_total : Total file_le.
Proof. intros f g. unfold file_le. lia. Qed.

#[local] Instance file_le_trans : Transitive file_le.
Proof. intros f g h. unfold file_le. lia. Qed.

Lemma GetFiles_TypeAll p : GetFiles TypeAll p = st_files p.
Proof.
  unfold GetFiles. induction (st_files p) as [|f fs IH]; [reflexivity|].
  rewrite filter_cons_True, IH; [reflexivity|].
  unfold TypeAll. destruct (Type_ f); repeat constructor.
Qed.

Lemma elem_of_files_sort f fs : f ∈ files_sort fs <-> f ∈ fs.
Proof. unfold files_sort. now rewrite merge_sort_Permutation. Qed.

(** The last file of the sorted list carries the largest number. *)
Lemma files_sort_last fs f :
  list.last (files_sort fs) = Some f ->
  f ∈ fs /\ forall g, g ∈ fs -> Num g <= Num f.
Proof.
  intros Hlast. apply last_Some in Hlast as [l Hl].
  pose proof (StronglySorted_merge_sort file_le fs) as Hs.
  fold (files_sort fs) in Hs. rewrite Hl in Hs.
  assert (Hin : forall g, g ∈ fs <-> g ∈ l ++ [f])
    by (intros g; now rewrite <- Hl, elem_of_files_sort).
  split; [apply Hin, elem_of_app; right; now apply list_elem_of_singleton|].
  intros g Hg. apply Hin, elem_of_app in Hg as [Hg|Hg].
  - eapply (StronglySorted_app_1_elem_of file_le); [exact Hs|exact Hg|].
    now apply list_elem_of_singleton.
  - apply list_elem_of_singleton in Hg as ->. reflexivity.
Qed.

Lemma index_last {A} (l : list A) x :
  index l (Z.of_nat (length l) - 1) = Ok x -> list.last l = Some x.
Proof.
  unfold index. destruct (_ || _); [discriminate|].
  rewrite last_lookup.
  replace (Z.to_nat (Z.of_nat (length l) - 1)) with (pred (length l)) by lia.
  destruct (l !! pred (length l)); [now intros [= ->]|discriminate].
Qed.

(** What [create] does to a session whose manifest is not open yet. *)
Lemma create_spec s s' :
  create s = Ok s' ->
  stVersion s = [] ->
  stFileNum s' = u64 (stFileNum s + 1)
  /\ manifest s' = Some (stFileNum s)
  /\ stSeq s' = stSeq s
  /\ stVersion s' = stVersion s
  /\ (forall f, f ∈ st_files (stor s') ->
        f ∈ st_files (stor s) \/ (Type_ f = TypeManifest /\ Num f = stFileNum s)).
Proof.
  unfold create, newManifest, allocFileNum, Create. intros Hc Hv. rewrite Hv in Hc.
  simpl in Hc. destruct (st_write_err (stor s)); [discriminate|].
  simpl in Hc. injection Hc as <-. simpl. repeat split; try assumption.
  intros f Hf. apply elem_of_app in Hf as [Hf|Hf].
  - left. now apply list_elem_of_filter in Hf as [_ Hf].
  - right. apply list_elem_of_singleton in Hf as ->. split; reflexivity.
Qed.

(** What [commit] does once the manifest is open. *)
Lemma commit_spec r s s' num :
  manifest s = Some num ->
  commit r s = Ok s' ->
  stFileNum s' = stFileNum s
  /\ stSeq s' = default (stSeq s) (r_seq r)
  /\ (forall f, f ∈ st_files (stor s') ->
        f ∈ st_files (stor s) \/ (Type_ f = TypeManifest /\ Num f = num)).
Proof.
  unfold commit, flushManifest, Create. intros -> Hc. simpl in Hc.
  destruct (st_write_err (stor s)); [discriminate|].
  simpl in Hc. injection Hc as <-. simpl. repeat split.
  intros f Hf. apply elem_of_app in Hf as [Hf|Hf].
  - left. now apply list_elem_of_filter in Hf as [_ Hf].
  - right. apply list_elem_of_singleton in Hf as ->. split; reflexivity.
Qed.

(** The table loop leaves the sequence number of the record alone, and its
    [nt] is the last readable table it met. *)
Lemma recover_tables_spec ff rec nt rec' nt' :
  recover_tables ff rec nt = Ok (rec', nt') ->
  r_seq rec' = r_seq rec
  /\ snd <$> nt'
     = match list.last (filter (fun f => readable_table f = true) ff) with
       | Some f => Some f
       | None => snd <$> nt
       end.
Proof.
  revert rec nt. induction ff as [|f ff IH]; intros rec nt; simpl.
  - intros [= <- <-]. split; reflexivity.
  - rewrite filter_cons.
    destruct (decide (readable_table f = true)) as [Hr|Hr].
    + unfold readable_table in Hr.
      apply andb_true_iff in Hr as [Hr H3]. apply andb_true_iff in Hr as [H1 H2].
      apply bool_decide_eq_true in H1, H2, H3.
      destruct H2 as [kmin E1], H3 as [kmax E2].
      rewrite (bool_decide_eq_false_2 (Type_ f ≠ TypeTable)) by tauto.
      rewrite E1, E2.
      destruct (Size f) as [size| |]; simpl; try discriminate.
      intros Hrec. apply IH in Hrec as [Hs Hn]. split; [exact Hs|].
      rewrite Hn, last_cons. now destruct (list.last _).
    + destruct (decide (Type_ f = TypeTable)) as [Ht|Ht].
      * rewrite (bool_decide_eq_false_2 (Type_ f ≠ TypeTable)) by tauto.
        destruct (Size f) as [size| |]; simpl; try discriminate.
        destruct (iter_First (tops_newIterator f)) as [kmin|] eqn:E1;
          [destruct (iter_Last (tops_newIterator f)) as [kmax|] eqn:E2|].
        -- exfalso. apply Hr. unfold readable_table.
           rewrite E1, E2, !bool_decide_eq_true_2; eauto.
        -- destruct (iter_Error _); [discriminate|apply IH].
        -- destruct (iter_Error _); [discriminate|apply IH].
      * rewrite (bool_decide_eq_true_2 (Type_ f ≠ TypeTable)) by assumption.
        apply IH.
Qed.

Section RecoverSteps.
Context `{Comparer}.

(** The steps of a [Recover] that reaches its commit. *)
Lemma Recover_session_steps p opts s :
  Recover_session p opts = Ok s ->
  exists s0 rec nt f0 s2,
    newSession p opts = Ok s0
    /\ recover_tables (files_sort (st_files p)) new_sessionRecord None = Ok (rec, nt)
    /\ list.last (files_sort (st_files p)) = Some f0
    /\ create (with_stFileNum (u64 (Num f0 + 1)) s0) = Ok s2
    /\ commit (match nt with
               | Some (_, f) => setSeq (largest_seq (iter_keys (tops_newIterator f))) rec
               | None => rec
               end) s2 = Ok s.
Proof.
  unfold Recover_session. destruct (HasFlag OFStrict opts); [discriminate|].
  destruct (newSession p opts) as [s0| |] eqn:Es; simpl; try discriminate.
  assert (Hst : stor s0 = p).
  { unfold newSession in Es. destruct (st_lock_err p); [discriminate|].
    now injection Es as <-. }
  unfold getFiles. rewrite Hst, GetFiles_TypeAll.
  destruct (recover_tables _ _ _) as [[rec nt]| |]; simpl; try discriminate.
  destruct (index _ _) as [f0| |] eqn:Ei; simpl; try discriminate.
  apply index_last in Ei.
  destruct (create _) as [s2| |] eqn:Ec; simpl; try discriminate.
  intros Hc. exists s0, rec, nt, f0, s2. repeat split; assumption.
Qed.

Lemma newSession_fresh p opts s0 :
  newSession p opts = Ok s0 ->
  stor s0 = p /\ stVersion s0 = [] /\ stSeq s0 = 0 /\ o s0 = opts.
Proof.
  unfold newSession. destruct (st_lock_err p); [discriminate|].
  intros [= <-]. repeat split.
Qed.

End RecoverSteps.

Section RecoverJournals.
Context `{Comparer}.

Lemma Recover_session_files p opts s f :
  Recover_session p opts = Ok s ->
  f ∈ st_files (stor s) -> f ∈ st_files p \/ Type_ f = TypeManifest.
Proof.
  intros Hr Hf.
  apply Recover_session_steps in Hr as (s0 & rec & nt & f0 & s2 & Hs0 & _ & _ & Hc & Hm).
  apply newSession_fresh in Hs0 as (Hst & Hv & _ & _).
  apply create_spec in Hc as (_ & Hman & _ & _ & Hfiles2); [|exact Hv].
  eapply commit_spec in Hm as (_ & _ & Hfiles); [|exact Hman].
  apply Hfiles in Hf as [Hf|[-> _]]; [|now right].
  apply Hfiles2 in Hf as [Hf|[-> _]]; [|now right].
  left. simpl in Hf. now rewrite Hst in Hf.
Qed.

Lemma pick_journals_subset jfiles : forall acc s f,
  f ∈ (foldl (fun '(acc, s) file =>
                if (stJournalNum s <=? Num file) || (Num file =? stPrevJournalNum s)
                then (acc ++ [file], markFileNum (Num file) s)
                else (acc, s)) (acc, s) jfiles).1 ->
  f ∈ acc \/ f ∈ jfiles.
Proof.
  induction jfiles as [|g jfiles IH]; intros acc s f; simpl; [tauto|].
  destruct (_ || _); intros Hf; apply IH in Hf as [Hf|Hf].
  - apply elem_of_app in Hf as [Hf|Hf]; [now left|].
    right. apply list_elem_of_singleton in Hf as ->. now left.
  - right. now right.
  - now left.
  - right. now right.
Qed.

Lemma recover_files_seq strict wb files :
  Forall no_record files ->
  forall d mem cm ofile d' mem' cm' ofile',
  recover_files strict wb files d mem cm ofile = Ok (d', mem', cm', ofile') ->
  d_seq d' = d_seq d.
Proof.
  induction 1 as [|file files Hfile _ IH]; intros d mem cm ofile d' mem' cm' ofile'; simpl.
  - now intros [= <- _ _ _].
  - destruct (f_open_err file); simpl; [discriminate|].
    assert (Hstep : forall d1 cm1,
               d_seq d1 = d_seq d ->
               (replay strict wb file (journal_entries file) d1 memdb.New cm1
                  ≫= (fun '(d, m, cm) => recover_files strict wb files d (Some m) cm (Some file)))
               = Ok (d', mem', cm', ofile') ->
               d_seq d' = d_seq d).
    { intros d1 cm1 Hd1.
      destruct (replay _ _ _ _ _ _ _) as [[[d2 m2] cm2]| |] eqn:Er; simpl; try discriminate.
      intros Hrec. apply IH in Hrec. rewrite Hrec, <- Hd1.
      eapply replay_no_record_seq; [exact Hfile|exact Er]. }
    destruct mem as [m|]; simpl.
    + destruct (0 <? memdb.Len m);
        [destruct (cm_flush _ _ _ _) as [[cm1 s1]| |]; simpl; try discriminate|simpl];
        (destruct (cm_commit _ _ _ _) as [s2| |]; simpl; try discriminate;
         destruct ofile as [g|]; simpl; try discriminate;
         apply Hstep; reflexivity).
    + apply Hstep. reflexivity.
Qed.

Lemma newMem_seq d d' : newMem d = Ok d' -> d_seq d' = d_seq d.
Proof.
  unfold newMem. destruct (allocFileNum (d_s d)) as [num s].
  destruct (Create _ _ _ _); try discriminate. now intros [= <-].
Qed.

(** Replaying journals without an intact record leaves the last sequence
    number as the session gave it. *)
Lemma recoverJournal_seq d d' :
  (forall f, f ∈ st_files (stor (d_s d)) -> Type_ f = TypeJournal -> no_record f) ->
  recoverJournal d = Ok d' ->
  d_seq d' = d_seq d.
Proof.
  intros Hj. unfold recoverJournal, pick_journals.
  destruct (foldl _ _ _) as [rJfiles s] eqn:Ep.
  assert (Hall : Forall no_record rJfiles).
  { apply Forall_forall. intros f Hf.
    assert (Hf' : f ∈ (rJfiles, s).1) by exact Hf. rewrite <- Ep in Hf'.
    apply pick_journals_subset in Hf' as [Hf'|Hf']; [now apply elem_of_nil in Hf'|].
    apply (proj1 (elem_of_files_sort _ _)) in Hf'. unfold getFiles, GetFiles in Hf'.
    apply list_elem_of_filter in Hf' as [Ht Hf'].
    apply list_elem_of_singleton in Ht. now apply Hj. }
  destruct (recover_files _ _ _ _ _ _ _) as [[[[d1 mem] cm] ofile]| |] eqn:Er;
    simpl; try discriminate.
  apply (recover_files_seq _ _ _ Hall) in Er. simpl in Er.
  destruct (newMem d1) as [d2| |] eqn:En; simpl; try discriminate.
  apply newMem_seq in En.
  destruct (flush_if_any _ _ _) as [[cm1 s1]| |]; simpl; try discriminate.
  destruct (cm_commit _ _ _ _) as [s2| |]; simpl; try discriminate.
  intros [= <-]. simpl. congruence.
Qed.

End RecoverJournals.

(** [largest_seq] is the largest sequence number among the keys that
    parse, and 0 when there is none. *)
Lemma largest_seq_fold keys : forall lseq,
  let r := foldl (fun lseq k =>
                    match parseNum k with
                    | Some (seq, _) => if lseq <? seq then seq else lseq
                    | None => lseq
                    end) lseq keys in
  lseq <= r
  /\ (forall k seq t, k ∈ keys -> parseNum k = Some (seq, t) -> seq <= r)
  /\ (r = lseq \/ exists k t, k ∈ keys /\ parseNum k = Some (r, t)).
Proof.
  induction keys as [|k keys IH]; intros lseq; cbn zeta.
  - simpl. split; [lia|]. split; [|now left].
    intros k seq t Hk. now apply elem_of_nil in Hk.
  - cbn [foldl].
    destruct (parseNum k) as [[seq t]|] eqn:Hp.
    + destruct (lseq <? seq) eqn:Hlt;
        [apply Z.ltb_lt in Hlt|apply Z.ltb_ge in Hlt].
      * destruct (IH seq) as (H1 & H2 & H3). cbn zeta in H1, H2, H3.
        split; [lia|]. split.
        -- intros k' seq' t' [->|Hk]%elem_of_cons Hp'.
           ++ rewrite Hp in Hp'. injection Hp' as <- <-. exact H1.
           ++ eapply H2; eassumption.
        -- right. destruct H3 as [->|(k' & t' & Hk & Hp')].
           ++ exists k, t. split; [left|exact Hp].
           ++ exists k', t'. split; [now right|exact Hp'].
      * destruct (IH lseq) as (H1 & H2 & H3). cbn zeta in H1, H2, H3.
        split; [exact H1|]. split.
        -- intros k' seq' t' [->|Hk]%elem_of_cons Hp'.
           ++ rewrite Hp in Hp'. injection Hp' as <- <-. lia.
           ++ eapply H2; eassumption.
        -- destruct H3 as [H3|(k' & t' & Hk & Hp')]; [now left|].
           right. exists k', t'. split; [now right|exact Hp'].
    + destruct (IH lseq) as (H1 & H2 & H3). cbn zeta in H1, H2, H3.
      split; [exact H1|]. split.
      * intros k' seq' t' [->|Hk]%elem_of_cons Hp'.
        -- rewrite Hp in Hp'. discriminate.
        -- eapply H2; eassumption.
      * destruct H3 as [H3|(k' & t' & Hk & Hp')]; [now left|].
        right. exists k', t'. split; [now right|exact Hp'].
Qed.

Lemma largest_seq_spec keys :
  (forall k seq t, k ∈ keys -> parseNum k = Some (seq, t) -> seq <= largest_seq keys)
  /\ (largest_seq keys = 0
      \/ exists k t, k ∈ keys /\ parseNum k = Some (largest_seq keys, t)).
Proof.
  destruct (largest_seq_fold keys 0) as (_ & H2 & H3). split; assumption.
Qed.

Section RecoverTheorems.
Context `{Comparer}.

(** [Recover] seeds the last sequence number from the newest table
    only: the sequence number it commits to the manifest, with which the
    DB is opened, is the largest one among the keys of the readable table with
    the largest file number, and 0 when no table is readable; the tables with
    smaller file numbers are not looked at. When the journals of the storage
    hold no intact record, this is the last sequence number of the DB that
    [Recover] returns. *)
Lemma Recover_seeds_seq_from_newest_table (p : Storage) (opts : Options) :
  (forall s, Recover_session p opts = Ok s -> stSeq s = newest_table_seq p)
  /\ (forall db, Recover p opts = Ok db ->
        (forall f, f ∈ st_files p -> Type_ f = TypeJournal -> no_record f) ->
        d_seq db = newest_table_seq p).
Proof.
  assert (Hseed : forall s, Recover_session p opts = Ok s -> stSeq s = newest_table_seq p).
  { intros s Hr.
    apply Recover_session_steps in Hr as (s0 & rec & nt & f0 & s2 & Hs0 & Ht & _ & Hc & Hm).
    apply newSession_fresh in Hs0 as (_ & Hv & Hseq0 & _).
    apply recover_tables_spec in Ht as [Hrs Hnt]. simpl in Hrs, Hnt.
    apply create_spec in Hc as (_ & Hman & Hseq2 & _ & _); [|exact Hv].
    eapply commit_spec in Hm as (_ & Hseq & _); [|exact Hman].
    simpl in Hseq2. rewrite Hseq, Hseq2, Hseq0.
    unfold newest_table_seq, newest_table. rewrite GetFiles_TypeAll.
    destruct nt as [[t f]|]; simpl in Hnt.
    - destruct (list.last _) as [g|]; [|discriminate].
      injection Hnt as ->. reflexivity.
    - destruct (list.last _) as [g|]; [discriminate|].
      simpl. now rewrite Hrs. }
  split; [exact Hseed|].
  intros db Hr Hj. unfold Recover in Hr. inv_bind Hr.
  unfold openDB in Hr. inv_bind Hr. injection Hr as <-.
  apply recoverJournal_seq in Ha0.
  - unfold cleanFiles. simpl. rewrite Ha0. simpl. now apply Hseed.
  - simpl. intros f Hf Hty.
    eapply Recover_session_files in Hf as [Hf|Hf]; [|congruence|exact Ha].
    now apply Hj.
Qed.

(** C7 (amended). When the file numbers of the storage are below 2^64 - 2,
    so that the 64-bit counter does not wrap, the next file number of the
    session after [Recover] has committed its manifest is above the number of
    every file of the storage, the new manifest included. *)
Theorem Recover_next_file_number (p : Storage) (opts : Options) (s : session) :
  Recover_session p opts = Ok s ->
  (forall f, f ∈ st_files p -> 0 <= Num f < 2 ^ 64 - 2) ->
  forall f, f ∈ st_files (stor s) -> Num f < stFileNum s.
Proof.
  intros Hr Hb f Hf.
  apply Recover_session_steps in Hr as (s0 & rec & nt & f0 & s2 & Hs0 & _ & Hl & Hc & Hm).
  apply newSession_fresh in Hs0 as (Hst & Hv & _ & _).
  apply files_sort_last in Hl as [Hf0 Hmax].
  pose proof (Hb f0 Hf0) as Hb0.
  apply create_spec in Hc as (Hn2 & Hman & _ & _ & Hfiles2); [|exact Hv].
  simpl in Hn2, Hman, Hfiles2.
  eapply commit_spec in Hm as (Hn & _ & Hfiles); [|exact Hman].
  assert (Hnum : stFileNum s = Num f0 + 2).
  { rewrite Hn, Hn2. unfold u64.
    rewrite (Z.mod_small (Num f0 + 1)) by lia. rewrite Z.mod_small by lia. lia. }
  assert (Hman' : u64 (Num f0 + 1) = Num f0 + 1) by (unfold u64; apply Z.mod_small; lia).
  rewrite Hnum.
  apply Hfiles in Hf as [Hf|[_ ->]]; [|lia].
  apply Hfiles2 in Hf as [Hf|[_ ->]]; [|lia].
  rewrite Hst in Hf. specialize (Hmax f Hf). lia.
Qed.

End RecoverTheorems.

Section Samples.
#[local] Existing Instance BytewiseComparer.

(** C2. Table 1 holds the record of "k" with sequence number 20 and table
    2, the newest, the record of "j" with sequence number 9; no record of
    the tables has a sequence number above 20. [Recover] installs both
    tables and returns a DB whose last sequence number is 9, not 20: the
    record of "k" lies above it, [Get] does not find "k", and the sequence
    numbers of the next writes are not above those of the records
    recovered. *)
Theorem Recover_seq_below_installed_record :
  let p := sample.storage_two_tables in
  let key := newIKey (B "k") 20 tVal in
  key ∈ all_table_keys p
  /\ parseIkey key = Some (B "k", 20, tVal)
  /\ (forall k seq t, k ∈ all_table_keys p -> parseNum k = Some (seq, t) -> seq <= 20)
  /\ exists db,
       Recover p (sample.options []) = Ok db
       /\ d_seq db = 9
       /\ t_num <$> concat (stVersion (d_s db)) = [1; 2]
       /\ exists db', Get db (B "k") sample.ro = Ok ([], Some ErrNotFound, db').
Proof.
  intros p key. split; [|split; [|split]].
  - vm_compute. left.
  - vm_compute. reflexivity.
  - intros k seq t Hk Hp.
    pose proof (proj1 (largest_seq_spec (all_table_keys p)) k seq t Hk Hp) as Hle.
    exact Hle.
  - eexists. split; [vm_compute; reflexivity|].
    split; [reflexivity|]. split; [reflexivity|].
    eexists. vm_compute. reflexivity.
Qed.

Lemma Recover_next_file_number_witness :
  let p := sample.storage_two_tables in
  let opts := sample.options [] in
  let s := match Recover_session p opts with
           | Ok s => s
           | _ => sample.fresh_session p
           end in
  Recover_session p opts = Ok s
  /\ Forall (fun f => 0 <= Num f < 2 ^ 64 - 2) (st_files p)
  /\ Forall (fun f => Num f < stFileNum s) (st_files (stor s)).
Proof.
  intros p opts s.
  assert (Hb : Forall (fun f => 0 <= Num f < 2 ^ 64 - 2) (st_files p))
    by (repeat constructor; vm_compute; congruence).
  split; [vm_compute; reflexivity|]. split; [exact Hb|].
  apply Forall_forall.
  apply (Recover_next_file_number p opts s).
  - vm_compute; reflexivity.
  - now apply Forall_forall.
Defined.

(** C7 (counterexample). The only file of the storage carries the number
    2^64 - 1. [Recover] commits its manifest with the next file number 1: the
    counter wrapped to 0, which the new manifest took. *)
Lemma Recover_file_number_wraps :
  numbers_after (Recover_session sample.storage_last_number (sample.options []))
  = Ok (1, [2 ^ 64 - 1; 0])
  /\ ~ 2 ^ 64 - 1 < 1.
Proof. split; [vm_compute; reflexivity|lia]. Qed.


Lemma Open_flags_witness :
  is_Ok (Open sample.empty_storage (sample.options [OFCreateIfMissing]))
  /\ Open sample.empty_storage (sample.options []) = Err os_ErrNotExist
  /\ Open sample.storage_existing (sample.options [OFErrorIfExist]) = Err os_ErrExist.
Proof.
  pose proof (Open_flags sample.empty_storage (sample.options [OFCreateIfMissing])
                eq_refl) as [Hnew _].
  pose proof (Open_flags sample.empty_storage (sample.options []) eq_refl) as [Hnone _].
  pose proof (Open_flags sample.storage_existing (sample.options [OFErrorIfExist])
                eq_refl) as [_ Hexist].
  split; [|split].
  - destruct (Hnew eq_refl) as [Hcreate _].
    destruct (Hcreate eq_refl) as [_ Hdb].
    destruct (Hdb eq_refl eq_refl) as (db & Hopen & _). now exists db.
  - destruct (Hnone eq_refl) as [_ Herr]. apply Herr. reflexivity.
  - eapply Hexist; [reflexivity| |reflexivity]. vm_compute. reflexivity.
Defined.

End Samples.

(** * Further properties *)

(** ** Calls that cannot panic *)

Lemma no_panic_bind {A C} (m : outcome A) (k : A -> outcome C) :
  no_panic m -> (forall a, m = Ok a -> no_panic (k a)) -> no_panic (m ≫= k).
Proof.
  intros Hm Hk msg. destruct m as [a|e|msg']; simpl.
  - now apply Hk.
  - discriminate.
  - now destruct (Hm msg').
Qed.

(** Closes a goal [no_panic r] when [r] is a plain result or error. *)
Ltac np := solve [simpl; intros; unfold no_panic; intros; discriminate].

Lemma Create_no_panic ft num c p : no_panic (Create ft num c p).
Proof. unfold Create. destruct (st_write_err p); np. Qed.

Lemma try_no_panic err : no_panic (try err).
Proof. destruct err; np. Qed.

Lemma decode_recs_no_panic n : forall bs, no_panic (batch.decode_recs n bs).
Proof.
  induction n as [|n IH]; intros bs; simpl.
  - destruct (bool_decide _); np.
  - destruct bs as [|t bs]; [np|].
    destruct (batch.unslice bs) as [[k bs2]|]; [|np].
    destruct (Z_of_byte t =? 1).
    + destruct (batch.unslice bs2) as [[v bs3]|]; [|np].
      apply no_panic_bind; [apply IH|np].
    + destruct (Z_of_byte t =? 0); [|np].
      apply no_panic_bind; [apply IH|np].
Qed.

Lemma decode_no_panic buf : no_panic (batch.decode buf).
Proof.
  unfold batch.decode. destruct (_ <? _)%nat; [np|].
  apply no_panic_bind; [apply decode_recs_no_panic|np].
Qed.

Lemma newManifest_no_panic r v s : no_panic (newManifest r v s).
Proof.
  unfold newManifest. destruct (allocFileNum s) as [num s1].
  apply no_panic_bind; [apply Create_no_panic|np].
Qed.

Lemma commit_no_panic r s : no_panic (commit r s).
Proof.
  unfold commit. apply no_panic_bind; [|np].
  destruct (manifest s); [|apply newManifest_no_panic].
  unfold flushManifest. apply no_panic_bind; [apply Create_no_panic|np].
Qed.

Lemma cm_flush_no_panic mem level cm s : no_panic (cm_flush mem level cm s).
Proof.
  unfold cm_flush. destruct (allocFileNum s) as [num s1].
  apply no_panic_bind; [apply Create_no_panic|np].
Qed.

Lemma newMem_no_panic d : no_panic (newMem d).
Proof.
  unfold newMem. destruct (allocFileNum (d_s d)) as [num s].
  pose proof (Create_no_panic TypeJournal num (Journal []) (stor s)) as Hc.
  destruct (Create _ _ _ _) as [p|e|msg]; [np|np|].
  intros msg' _. now apply (Hc msg).
Qed.

Section NoPanic.
Context `{Comparer}.

Lemma flush_if_any_no_panic mem cm s : no_panic (flush_if_any mem cm s).
Proof.
  unfold flush_if_any. destruct mem as [m|]; [|np].
  destruct (0 <? memdb.Len m); [apply cm_flush_no_panic|np].
Qed.

Lemma replay_no_panic strict wb file es :
  forall d mem cm, no_panic (replay strict wb file es d mem cm).
Proof.
  induction es as [|e es IH]; intros d mem cm; simpl; [np|].
  destruct e as [payload|n|n]; simpl.
  - apply no_panic_bind; [apply decode_no_panic|]. intros bt _.
    unfold batch.memReplay. simpl.
    destruct (wb <=? _); [|apply IH].
    apply no_panic_bind; [apply cm_flush_no_panic|]. intros [cm' s3] _. apply IH.
  - destruct strict; [np|apply IH].
  - destruct strict; [np|apply IH].
Qed.

(** In [recoverJournal], [of] is set whenever [mem] is, so [of.Remove()]
    never meets a nil file. *)
Lemma recover_files_no_panic strict wb files :
  forall d mem cm ofile,
    (is_Some mem -> is_Some ofile) ->
    no_panic (recover_files strict wb files d mem cm ofile).
Proof.
  induction files as [|file files IH]; intros d mem cm ofile Hof; simpl;
    [np|].
  apply no_panic_bind; [apply try_no_panic|]. intros _ _.
  apply no_panic_bind.
  - destruct mem as [m|]; [|np].
    apply no_panic_bind; [apply flush_if_any_no_panic|]. intros [cm1 s1] _.
    apply no_panic_bind; [apply commit_no_panic|]. intros s2 _.
    destruct Hof as [g ->]; [eauto|]. np.
  - intros [[d1 cm1] of1] _.
    apply no_panic_bind; [apply replay_no_panic|]. intros [[d2 m2] cm2] _.
    apply IH. eauto.
Qed.

Lemma recoverJournal_no_panic d : no_panic (recoverJournal d).
Proof.
  unfold recoverJournal. destruct (pick_journals _ _) as [rJfiles s].
  apply no_panic_bind; [apply recover_files_no_panic; intros [? [=]]|].
  intros [[[d1 mem] cm] ofile] _.
  apply no_panic_bind; [apply newMem_no_panic|]. intros d2 _.
  apply no_panic_bind; [apply flush_if_any_no_panic|]. intros [cm1 s1] _.
  apply no_panic_bind; [apply commit_no_panic|]. intros s2 _.
  np.
Qed.

Lemma openDB_no_panic s : no_panic (openDB s).
Proof.
  unfold openDB. apply no_panic_bind; [apply recoverJournal_no_panic|np].
Qed.

Lemma newMem_mem d d' : newMem d = Ok d' -> d_mem d' = Some memdb.New.
Proof.
  unfold newMem. destruct (allocFileNum (d_s d)) as [num s].
  destruct (Create _ _ _ _); try discriminate. now intros [= <-].
Qed.

Lemma recoverJournal_mem d d' :
  recoverJournal d = Ok d' -> d_mem d' = Some memdb.New.
Proof.
  unfold recoverJournal. destruct (pick_journals _ _) as [rJfiles s].
  intros Hr.
  apply bind_Ok in Hr as ([[[d1 mem] cm] ofile] & _ & Hr).
  apply bind_Ok in Hr as (d2 & Hnew & Hr).
  apply bind_Ok in Hr as ([cm1 s1] & _ & Hr).
  apply bind_Ok in Hr as (s2 & _ & Hr).
  injection Hr as <-. simpl. eapply newMem_mem, Hnew.
Qed.

Lemma openDB_mem s db : openDB s = Ok db -> d_mem db = Some memdb.New.
Proof.
  unfold openDB. intros Hr. apply bind_Ok in Hr as (d1 & Hj & Hr).
  injection Hr as <-. unfold cleanFiles. simpl. eapply recoverJournal_mem, Hj.
Qed.

Lemma newSession_no_panic p opts : no_panic (newSession p opts).
Proof. unfold newSession. destruct (st_lock_err p); np. Qed.

Lemma recover_no_panic s : no_panic (recover s).
Proof.
  unfold recover. destruct (st_current (stor s)); [|np].
  destruct (GetFile _ _ _) as [f|]; [|np].
  destruct (f_open_err f); [np|].
  destruct (f_content f); np.
Qed.

Lemma Open_cases p opts s :
  newSession p opts = Ok s ->
  Open p opts = Err os_ErrExist
  \/ Open p opts = (s' ← create s; openDB s')
  \/ Open p opts = (s' ← recover s; openDB s').
Proof.
  intros Hs. unfold Open. rewrite Hs. simpl.
  destruct (os_IsNotExist _ && _); [right; left; reflexivity|].
  destruct (bool_decide _ && _); [left|right; right]; reflexivity.
Qed.

(** X1. [Open] never panics, whatever the storage and the options: the
    nil-pointer paths of [recoverJournal] and [get] (the removal of the
    previous journal file, the lookup in the memtable) cannot be reached
    from it, unlike [Recover], which can index an empty slice. A DB that
    [Open] returns has an empty active memtable, and [Get] on it never
    panics. *)
Theorem Open_never_panics (p : Storage) (opts : Options) :
  no_panic (Open p opts)
  /\ (forall db, Open p opts = Ok db ->
        d_mem db = Some memdb.New
        /\ forall key ro, no_panic (Get db key ro)).
Proof.
  assert (Hmem : forall db, Open p opts = Ok db -> d_mem db = Some memdb.New).
  { intros db Ho. destruct (newSession p opts) as [s| |] eqn:Es.
    - destruct (Open_cases p opts s Es) as [Hc|[Hc|Hc]]; rewrite Hc in Ho;
        [discriminate| |]; apply bind_Ok in Ho as (s' & _ & Ho);
        eapply openDB_mem, Ho.
    - unfold Open in Ho. rewrite Es in Ho. discriminate.
    - unfold Open in Ho. rewrite Es in Ho. discriminate. }
  split; [|intros db Ho; split; [now apply Hmem|]].
  - pose proof (newSession_no_panic p opts) as Hn.
    destruct (newSession p opts) as [s| |] eqn:Es.
    + destruct (Open_cases p opts s Es) as [Hc|[Hc|Hc]]; rewrite Hc.
      * np.
      * apply no_panic_bind; [apply newManifest_no_panic|].
        intros; apply openDB_no_panic.
      * apply no_panic_bind; [apply recover_no_panic|]. intros; apply openDB_no_panic.
    + unfold Open. rewrite Es. np.
    + now destruct (Hn msg).
  - intros key ro. unfold Get. destruct (ok db); [np|].
    apply no_panic_bind; [|intros [[v e] d'] _; np].
    unfold get, getMem. rewrite (Hmem db Ho).
    destruct (memGet _ _ _) as [[hit v] e]. destruct hit; [np|].
    destruct (d_frozenMem db) as [fm|].
    + destruct (memGet fm _ _) as [[hit' v'] e']. destruct hit'; [np|].
      destruct (version_get _ _ _) as [[v2 c] e2]. np.
    + destruct (version_get _ _ _) as [[v2 c] e2]. np.
Qed.

(** X2. Once the session is set up, [Open] passes on what the recovery of
    the manifest gives: an error other than not-exist is returned as it is,
    with or without [OFCreateIfMissing] (a damaged manifest is never replaced
    by a fresh database), and a recovered session is opened by [openDB]
    unless [OFErrorIfExist] is set. *)
Theorem Open_passes_recover_result (p : Storage) (opts : Options) (s : session) :
  newSession p opts = Ok s ->
  (forall e, recover s = Err e -> e <> os_ErrNotExist -> Open p opts = Err e)
  /\ (forall s', recover s = Ok s' -> HasFlag OFErrorIfExist opts = false ->
        Open p opts = openDB s').
Proof.
  intros Hs.
  assert (Ho : o s = opts).
  { unfold newSession in Hs. destruct (st_lock_err p); [discriminate|].
    now injection Hs as <-. }
  assert (Hopen : Open p opts
                  = ((if os_IsNotExist (error_of (recover s))
                         && HasFlag OFCreateIfMissing opts
                      then create s
                      else if bool_decide (error_of (recover s) = None)
                              && HasFlag OFErrorIfExist opts
                           then Err os_ErrExist
                           else recover s) ≫= openDB)).
  { unfold Open. rewrite Hs, <- Ho. reflexivity. }
  rewrite Hopen. split.
  - intros e -> Hne. unfold error_of.
    destruct (os_IsNotExist (Some e)) eqn:E;
      [apply bool_decide_eq_true in E; congruence|].
    rewrite bool_decide_eq_false_2 by discriminate. reflexivity.
  - intros s' -> Hflag. unfold error_of. rewrite Hflag, andb_false_r.
    destruct (os_IsNotExist None) eqn:E;
      [apply bool_decide_eq_true in E; discriminate|].
    reflexivity.
Qed.

End NoPanic.

(** ** Replay past damaged entries *)




Section ReplayPastDamage.
Context `{Comparer}.





End ReplayPastDamage.

Section ReplayPastDamageSample.
#[local] Existing Instance BytewiseComparer.


End ReplayPastDamageSample.

(** ** More on [Recover] *)

Lemma Size_Ok f size : Size f = Ok size -> size = content_size (f_content f).
Proof. unfold Size. destruct (f_size_err f); [discriminate|]. now intros [= <-]. Qed.

Lemma readable_table_keys f :
  readable_table f = true ->
  Type_ f = TypeTable
  /\ exists kmin kmax, iter_First (tops_newIterator f) = Some kmin
                       /\ iter_Last (tops_newIterator f) = Some kmax.
Proof.
  unfold readable_table. intros Hr.
  apply andb_true_iff in Hr as [Hr H3]. apply andb_true_iff in Hr as [H1 H2].
  apply bool_decide_eq_true in H1, H2, H3.
  destruct H2 as [kmin E1], H3 as [kmax E2]. eauto.
Qed.

Lemma not_readable_table f :
  Type_ f = TypeTable -> readable_table f <> true ->
  iter_First (tops_newIterator f) = None \/ iter_Last (tops_newIterator f) = None.
Proof.
  intros Ht Hr.
  destruct (iter_First (tops_newIterator f)) as [kmin|] eqn:E1; [|now left].
  destruct (iter_Last (tops_newIterator f)) as [kmax|] eqn:E2; [|now right].
  exfalso. apply Hr. unfold readable_table.
  rewrite E1, E2, !bool_decide_eq_true_2; eauto.
Qed.

(** One round of the table loop of [Recover]. *)
Lemma recover_tables_cons f ff rec nt :
  recover_tables (f :: ff) rec nt
  = if decide (Type_ f = TypeTable) then
      size ← Size f;
      if decide (readable_table f = true)
      then recover_tables ff (addTableFile 0 (tfile_of f) rec) (Some (tfile_of f, f))
      else match iter_Error (tops_newIterator f) with
           | Some err => Err err
           | None => recover_tables ff rec nt
           end
    else recover_tables ff rec nt.
Proof.
  simpl. destruct (decide (Type_ f = TypeTable)) as [Ht|Ht].
  - rewrite (bool_decide_eq_false_2 (Type_ f ≠ TypeTable)) by tauto.
    destruct (Size f) as [size| |] eqn:Es; simpl; try reflexivity.
    destruct (decide (readable_table f = true)) as [Hr|Hr].
    + destruct (readable_table_keys f Hr) as (_ & kmin & kmax & E1 & E2).
      unfold tfile_of. rewrite E1, E2. simpl. now rewrite (Size_Ok _ _ Es).
    + destruct (not_readable_table f Ht Hr) as [E|E].
      * now rewrite E.
      * rewrite E. now destruct (iter_First _).
  - now rewrite (bool_decide_eq_true_2 (Type_ f ≠ TypeTable)).
Qed.

Lemma recover_tables_no_panic ff : forall rec nt, no_panic (recover_tables ff rec nt).
Proof.
  induction ff as [|f ff IH]; intros rec nt; [np|].
  rewrite recover_tables_cons.
  destruct (decide _); [|apply IH].
  apply no_panic_bind.
  - unfold Size. destruct (f_size_err f); np.
  - intros size _. destruct (decide _); [apply IH|].
    destruct (iter_Error _); [np|apply IH].
Qed.

(** The tables that the loop adds to the record. *)
Lemma recover_tables_added ff : forall rec nt rec' nt',
  recover_tables ff rec nt = Ok (rec', nt') ->
  r_addedTables rec'
  = r_addedTables rec
      ++ ((fun f => (0, tfile_of f)) <$> filter (fun f => readable_table f = true) ff)
  /\ r_deletedTables rec' = r_deletedTables rec.
Proof.
  induction ff as [|f ff IH]; intros rec nt rec' nt'.
  - intros [= <- <-]. simpl. now rewrite app_nil_r.
  - rewrite recover_tables_cons, filter_cons.
    destruct (decide (Type_ f = TypeTable)) as [Ht|Ht].
    + intros Hr. apply bind_Ok in Hr as (size & _ & Hr).
      destruct (decide (readable_table f = true)) as [Hrd|Hrd].
      * apply IH in Hr as [Ha Hd]. simpl in Ha, Hd.
        split; [|exact Hd]. rewrite Ha, <- app_assoc. reflexivity.
      * destruct (iter_Error _); [discriminate|]. now apply IH in Hr.
    + destruct (decide (readable_table f = true)) as [Hrd|Hrd].
      * now destruct (readable_table_keys f Hrd).
      * apply IH.
Qed.

(** A broken table ends the loop with an error. *)
Lemma recover_tables_broken ff : forall rec nt,
  (exists f, f ∈ ff /\ broken_table f) ->
  exists e, recover_tables ff rec nt = Err e.
Proof.
  induction ff as [|f ff IH]; intros rec nt (g & Hg & Hb).
  - now apply elem_of_nil in Hg.
  - rewrite recover_tables_cons.
    apply elem_of_cons in Hg as [->|Hg].
    + destruct Hb as (Ht & Hb). rewrite decide_True by exact Ht.
      unfold Size. destruct Hb as [[e He]|[Hr [e He]]].
      * rewrite He. simpl. eauto.
      * destruct (f_size_err f); simpl; [eauto|].
        rewrite decide_False by congruence. rewrite He. eauto.
    + assert (Htail : forall rec nt, exists e, recover_tables ff rec nt = Err e)
        by (intros; apply IH; eauto).
      destruct (decide _); [|apply Htail].
      unfold Size. destruct (f_size_err f); simpl; [eauto|].
      destruct (decide _); [apply Htail|].
      destruct (iter_Error _); [eauto|apply Htail].
Qed.

Lemma record_depth_level_0 (ts : list tFile) :
  foldr (fun (a : Z * tFile) acc => Nat.max (S (Z.to_nat a.1)) acc) 0%nat
    ((fun t => (0, t)) <$> ts)
  = match ts with [] => 0%nat | _ => 1%nat end.
Proof.
  induction ts as [|t ts IH]; [reflexivity|].
  rewrite fmap_cons. cbn [foldr]. rewrite IH. now destruct ts.
Qed.

Lemma added_level_0 (ts : list tFile) :
  (filter (fun a : Z * tFile => a.1 = Z.of_nat 0) ((fun t => (0, t)) <$> ts)).*2 = ts.
Proof.
  induction ts as [|t ts IH]; [reflexivity|].
  rewrite fmap_cons, filter_cons_True by reflexivity.
  rewrite fmap_cons, IH. reflexivity.
Qed.

(** A record that only adds tables to level 0 of the empty version. *)
Lemma spawn_level_0 (ts : list tFile) (r : sessionRecord) :
  r_addedTables r = (fun t => (0, t)) <$> ts ->
  r_deletedTables r = [] ->
  spawn r [] = match ts with [] => [] | _ => [ts] end.
Proof.
  intros Ha Hd. unfold spawn, record_depth, added. rewrite Ha, record_depth_level_0.
  destruct ts as [|t ts]; [reflexivity|].
  simpl seq. simpl length. rewrite fmap_cons. rewrite added_level_0. reflexivity.
Qed.

Lemma commit_version r s s' :
  commit r s = Ok s' -> stVersion s' = spawn r (stVersion s).
Proof.
  unfold commit. intros Hc. apply bind_Ok in Hc as (s1 & _ & Hc).
  now injection Hc as <-.
Qed.

Lemma files_sort_nil fs : files_sort fs = [] -> fs = [].
Proof.
  intros Hs. apply Permutation_nil_r. rewrite <- Hs.
  unfold files_sort. now rewrite merge_sort_Permutation.
Qed.

Lemma index_last_Ok {A} (l : list A) :
  l <> [] -> exists x, index l (Z.of_nat (length l) - 1) = Ok x.
Proof.
  intros Hl. unfold index.
  destruct l as [|a l]; [congruence|].
  assert (Hlt : (Z.to_nat (Z.of_nat (length (a :: l)) - 1) < length (a :: l))%nat)
    by (rewrite length_cons; lia).
  apply lookup_lt_is_Some_2 in Hlt as [x Hx]. rewrite Hx.
  destruct (_ || _) eqn:E; [|eauto].
  rewrite length_cons in E.
  apply orb_true_iff in E as [E|E]; [apply Z.ltb_lt in E|apply Z.leb_le in E]; lia.
Qed.

Section RecoverMore.
Context `{Comparer}.

(** X3. When [Recover] gets as far as committing its manifest, the version
    it installs holds at level 0 exactly the readable table files of the
    storage (those on which an iterator finds a first and a last key), in
    the order of their file numbers, each with its number, its size and its
    first and last key, and no table at any other level; the number of
    tables at level 0 is the number of readable tables. *)
Theorem Recover_installs_readable_tables (p : Storage) (opts : Options) (s : session) :
  Recover_session p opts = Ok s ->
  stVersion s = (if decide (readable_tables p = []) then []
                 else [tfile_of <$> readable_tables p])
  /\ tLen 0 (stVersion s) = Z.of_nat (length (readable_tables p)).
Proof.
  intros Hr.
  apply Recover_session_steps in Hr as (s0 & rec & nt & f0 & s2 & Hs0 & Ht & _ & Hc & Hm).
  apply newSession_fresh in Hs0 as (_ & Hv & _ & _).
  apply recover_tables_added in Ht as [Ha Hd]. simpl in Ha, Hd.
  apply create_spec in Hc as (_ & _ & _ & Hv2 & _); [|exact Hv].
  apply commit_version in Hm. simpl in Hv2. rewrite Hv2, Hv in Hm.
  rewrite (spawn_level_0 (tfile_of <$> readable_tables p)) in Hm.
  - rewrite Hm. destruct (readable_tables p) as [|f fs]; [split; reflexivity|].
    rewrite decide_False by discriminate.
    split; [reflexivity|]. unfold tLen. simpl. rewrite length_fmap. reflexivity.
  - unfold readable_tables. rewrite <- list_fmap_compose.
    destruct nt as [[t f]|]; simpl; exact Ha.
  - destruct nt as [[t f]|]; simpl; exact Hd.
Qed.

(** X4. [Recover] ends with an error, not with a partial database, when the
    storage holds a table file whose size cannot be queried, or on which the
    iterator reports an error without yielding both a first and a last
    key. *)
Theorem Recover_fails_on_broken_table (p : Storage) (opts : Options) :
  (exists f, f ∈ st_files p /\ broken_table f) ->
  exists e, Recover p opts = Err e.
Proof.
  intros (f & Hf & Hb). unfold Recover, Recover_session.
  destruct (HasFlag OFStrict opts); [simpl; eauto|].
  unfold newSession. destruct (st_lock_err p); [simpl; eauto|]. simpl.
  unfold getFiles. simpl. rewrite GetFiles_TypeAll.
  destruct (recover_tables_broken (files_sort (st_files p)) new_sessionRecord None)
    as [e He].
  { exists f. split; [now apply elem_of_files_sort|exact Hb]. }
  rewrite He. simpl. eauto.
Qed.

(** X5. [Recover] panics in one case only: the options are not strict, the
    lock of the storage can be taken and the storage holds no file at all
    (the index [ff[len(ff)-1]]). On every other input it returns a DB or an
    error. *)
Theorem Recover_panics_iff_no_file (p : Storage) (opts : Options) :
  (exists msg, Recover p opts = Panic msg)
  <-> HasFlag OFStrict opts = false /\ st_lock_err p = None /\ st_files p = [].
Proof.
  split.
  - intros [msg Hp]. unfold Recover in Hp.
    destruct (Recover_session p opts) as [s|e|msg'] eqn:Es; simpl in Hp.
    + now destruct (openDB_no_panic s msg).
    + discriminate.
    + clear Hp. unfold Recover_session in Es.
      destruct (HasFlag OFStrict opts); [discriminate|].
      unfold newSession in Es. destruct (st_lock_err p); [discriminate|].
      simpl in Es. unfold getFiles in Es. simpl in Es. rewrite GetFiles_TypeAll in Es.
      repeat split.
      destruct (recover_tables _ _ _) as [[rec nt]|e|msg2] eqn:Et; simpl in Es.
      * destruct (decide (files_sort (st_files p) = [])) as [Hn|Hn];
          [now apply files_sort_nil|].
        destruct (index_last_Ok _ Hn) as [f0 Hi]. rewrite Hi in Es. simpl in Es.
        match type of Es with
        | context [create ?s1] =>
            pose proof (newManifest_no_panic new_sessionRecord (stVersion s1) s1) as Hc;
            fold (create s1) in Hc;
            destruct (create s1) as [s2|e|msg3]; simpl in Es
        end.
        -- now destruct (commit_no_panic _ _ _ Es).
        -- discriminate.
        -- now destruct (Hc msg3).
      * discriminate.
      * now destruct (recover_tables_no_panic _ _ _ _ Et).
  - intros (Hs & Hl & Hf). unfold Recover, Recover_session, newSession, getFiles.
    rewrite Hs, Hl. simpl. rewrite GetFiles_TypeAll, Hf. simpl. eauto.
Qed.

End RecoverMore.

(** ** More on journal replay *)

Lemma cm_flush_dropped mem level cm s cm' s' :
  cm_flush mem level cm s = Ok (cm', s') -> s_dropped s' = s_dropped s.
Proof.
  unfold cm_flush, allocFileNum. intros Hf.
  apply bind_Ok in Hf as (p & _ & Hf). now injection Hf as _ <-.
Qed.

Section ReplayMore.
Context `{Comparer}.

(** X6. A replay of a journal that comes to its end has reported to the
    drop sink every damaged entry of the journal (bad chunk or torn record),
    in journal order, with the file number and the bytes lost, and nothing
    else; in strict mode it comes to its end only when the journal has no
    damaged entry. *)
Theorem replay_reports_every_damage (strict : bool) (wb : Z) (file : File)
  (es : list jentry) (d d' : DB) (mem mem' : memdb.DB) (cm cm' : sessionRecord) :
  replay strict wb file es d mem cm = Ok (d', mem', cm') ->
  s_dropped (d_s d') = s_dropped (d_s d) ++ drops file es
  /\ (strict = true -> drops file es = []).
Proof.
  revert d mem cm. induction es as [|e es IH]; intros d mem cm.
  - intros [= <- _ _]. unfold drops. simpl. now rewrite app_nil_r.
  - destruct e as [payload|n|n]; simpl.
    + intros Hr. apply bind_Ok in Hr as (bt & _ & Hr). simpl in Hr.
      destruct (wb <=? _).
      * apply bind_Ok in Hr as ([cm1 s3] & Hf & Hr).
        apply cm_flush_dropped in Hf. apply IH in Hr as [Hr Hs]. simpl in Hr.
        rewrite Hf in Hr. now split.
      * now apply IH in Hr.
    + destruct strict; [discriminate|]. intros Hr. apply IH in Hr as [Hr _].
      simpl in Hr. split; [|discriminate].
      rewrite Hr, <- app_assoc. reflexivity.
    + destruct strict; [discriminate|]. intros Hr. apply IH in Hr as [Hr _].
      simpl in Hr. split; [|discriminate].
      rewrite Hr, <- app_assoc. reflexivity.
Qed.

(** X7. With a positive write buffer, the memtable that a replay hands on
    is below the write buffer when the one it started with was: a memtable
    that reaches the write buffer is flushed to a table at once and replaced
    by an empty one. *)
Theorem replay_keeps_memtable_below_buffer (strict : bool) (wb : Z) (file : File)
  (es : list jentry) (d d' : DB) (mem mem' : memdb.DB) (cm cm' : sessionRecord) :
  0 < wb ->
  memdb.Size mem < wb ->
  replay strict wb file es d mem cm = Ok (d', mem', cm') ->
  memdb.Size mem' < wb.
Proof.
  intros Hwb. revert d mem cm. induction es as [|e es IH]; intros d mem cm Hm.
  - now intros [= _ <- _].
  - destruct e as [payload|n|n]; simpl.
    + intros Hr. apply bind_Ok in Hr as (bt & _ & Hr). simpl in Hr.
      destruct (Z.leb_spec wb (memdb.Size (batch.replay_from (batch.seq bt)
                                             (batch.recs bt) mem))).
      * apply bind_Ok in Hr as ([cm1 s3] & _ & Hr). now apply IH in Hr.
      * now apply IH in Hr.
    + destruct strict; [discriminate|]. now apply IH.
    + destruct strict; [discriminate|]. now apply IH.
Qed.

(** X8. After a replay that comes to its end, the last sequence number of
    the DB is the sequence number of the last intact record of the journal
    plus the number of its entries, in 64-bit arithmetic; the damaged
    entries after that record do not change it. *)
Theorem replay_last_sequence (strict : bool) (wb : Z) (file : File)
  (pre post : list jentry) (payload : bytes)
  (d d' : DB) (mem mem' : memdb.DB) (cm cm' : sessionRecord) :
  Forall (fun e => is_Some (damaged e)) post ->
  replay strict wb file (pre ++ JRecord payload :: post) d mem cm = Ok (d', mem', cm') ->
  exists bt, batch.decode payload = Ok bt
             /\ d_seq d' = u64 (batch.seq bt + u64 (batch.len bt)).
Proof.
  intros Hpost Hr. rewrite replay_app in Hr.
  apply bind_Ok in Hr as ([[d1 m1] cm1] & _ & Hr). simpl in Hr.
  apply bind_Ok in Hr as (bt & Hbt & Hr). simpl in Hr.
  exists bt. split; [exact Hbt|].
  destruct (wb <=? _).
  - apply bind_Ok in Hr as ([cm2 s3] & _ & Hr).
    now apply (replay_no_record_seq _ _ _ _ _ _ _ _ _ _ Hpost) in Hr.
  - now apply (replay_no_record_seq _ _ _ _ _ _ _ _ _ _ Hpost) in Hr.
Qed.

End ReplayMore.

(** What [pick_journals] does to the session: only the file counter moves,
    and only upwards. *)
Lemma pick_journals_fold jfiles : forall acc s,
  let r := foldl (fun '(acc, s) file =>
                    if (stJournalNum s <=? Num file) || (Num file =? stPrevJournalNum s)
                    then (acc ++ [file], markFileNum (Num file) s)
                    else (acc, s)) (acc, s) jfiles in
  r.1 = acc ++ filter (fun f => stJournalNum s <= Num f \/ Num f = stPrevJournalNum s) jfiles
  /\ stJournalNum r.2 = stJournalNum s
  /\ stPrevJournalNum r.2 = stPrevJournalNum s
  /\ stor r.2 = stor s
  /\ stFileNum s <= stFileNum r.2
  /\ (forall f, f ∈ jfiles ->
        (stJournalNum s <= Num f \/ Num f = stPrevJournalNum s) ->
        0 <= Num f < 2 ^ 64 - 1 -> Num f < stFileNum r.2).
Proof.
  induction jfiles as [|g jfiles IH]; intros acc s; simpl.
  - rewrite app_nil_r. repeat split; try reflexivity.
    intros f Hf. now apply elem_of_nil in Hf.
  - rewrite filter_cons.
    destruct ((stJournalNum s <=? Num g) || (Num g =? stPrevJournalNum s)) eqn:E.
    + assert (Hg : stJournalNum s <= Num g \/ Num g = stPrevJournalNum s).
      { apply orb_true_iff in E as [E|E]; [left; now apply Z.leb_le|right; now apply Z.eqb_eq]. }
      rewrite decide_True by exact Hg.
      destruct (IH (acc ++ [g]) (markFileNum (Num g) s)) as (H1 & H2 & H3 & H4 & H5 & H6).
      simpl in *. rewrite H1, H2, H3, H4, <- app_assoc.
      repeat split; try reflexivity; [lia|].
      intros f Hf Hr Hb. apply elem_of_cons in Hf as [->|Hf].
      * assert (u64 (Num g + 1) = Num g + 1) by (unfold u64; apply Z.mod_small; lia).
        lia.
      * now apply H6.
    + assert (Hg : ~ (stJournalNum s <= Num g \/ Num g = stPrevJournalNum s)).
      { apply orb_false_iff in E as [E1 E2].
        apply Z.leb_gt in E1. apply Z.eqb_neq in E2. lia. }
      rewrite decide_False by exact Hg.
      destruct (IH acc s) as (H1 & H2 & H3 & H4 & H5 & H6).
      repeat split; try assumption.
      intros f Hf Hr Hb. apply elem_of_cons in Hf as [->|Hf]; [tauto|now apply H6].
Qed.

(** X9. [recoverJournal] replays the journal files whose number is at least
    the journal number of the session, or equal to its previous journal
    number, in the order in which they are listed; picking them never lowers
    the file counter of the session, and leaves it above the number of
    every journal picked (for numbers below 2^64 - 1). *)
Theorem pick_journals_spec (s : session) (jfiles : list File) :
  (pick_journals s jfiles).1
  = filter (fun f => stJournalNum s <= Num f \/ Num f = stPrevJournalNum s) jfiles
  /\ stFileNum s <= stFileNum (pick_journals s jfiles).2
  /\ (forall f, f ∈ (pick_journals s jfiles).1 -> 0 <= Num f < 2 ^ 64 - 1 ->
        Num f < stFileNum (pick_journals s jfiles).2).
Proof.
  destruct (pick_journals_fold jfiles [] s) as (H1 & _ & _ & _ & H5 & H6).
  unfold pick_journals. simpl in *. repeat split; [exact H1|exact H5|].
  intros f Hf Hb. rewrite H1 in Hf. apply list_elem_of_filter in Hf as [Hr Hf].
  now apply H6.
Qed.

(** ** More on reads *)

Section ReadMore.
Context `{Comparer}.

Lemma Find_elem key m rkey value :
  memdb.Find key m = (rkey, value, None) -> (rkey, value) ∈ m.
Proof.
  induction m as [|[k v] m IH]; simpl; [discriminate|].
  destruct (0 <=? iCompare k key).
  - intros [= <- <-]. now left.
  - intros Hf. right. now apply IH.
Qed.

(** A hit of [memGet] is a value record of the key. *)
Lemma memGet_hit m key ikey value err :
  memGet m key ikey = (true, value, err) ->
  err = None /\ value_record key value m.
Proof.
  unfold memGet. destruct (memdb.Find ikey m) as [[rkey v] e] eqn:Ef.
  destruct e; [discriminate|].
  destruct (parseIkey rkey) as [[[uk seq] t]|] eqn:Ep; [|discriminate].
  destruct (Compare uk key =? 0) eqn:Ec; simpl; [|discriminate].
  destruct t; simpl; [discriminate|].
  intros [= <- <-]. split; [reflexivity|].
  exists rkey, uk, seq. apply Z.eqb_eq in Ec. apply Find_elem in Ef. eauto.
Qed.

(** Without a record of the key, [memGet] misses. *)
Lemma memGet_miss m key ikey :
  no_record_for key m -> (memGet m key ikey).1.1 = false.
Proof.
  intros Hno. unfold memGet. destruct (memdb.Find ikey m) as [[rkey v] e] eqn:Ef.
  destruct e; [reflexivity|].
  destruct (parseIkey rkey) as [[[uk seq] t]|] eqn:Ep; [|reflexivity].
  apply Find_elem in Ef. specialize (Hno _ _ _ _ _ Ef Ep).
  apply Z.eqb_neq in Hno. now rewrite Hno.
Qed.

(** X10. On a DB whose version holds no table, when [Get] returns a value
    with a nil error, one of the two memtables holds a record of kind value
    for that user key with exactly that value, and the call leaves the DB
    as it is. *)
Theorem Get_value_comes_from_a_value_record (d d' : DB) (key value : bytes)
  (ro : ReadOptions) :
  stVersion (d_s d) = [] ->
  Get d key ro = Ok (value, None, d') ->
  d' = d
  /\ exists m, (d_mem d = Some m \/ d_frozenMem d = Some m) /\ value_record key value m.
Proof.
  intros Hv. unfold Get. destruct (ok d); [discriminate|].
  intros Hg. apply bind_Ok in Hg as ([[v e] d1] & Hg & Hr).
  assert (Hve : v = value /\ e = None /\ d1 = d').
  { destruct (RHasFlag _ _); simpl in Hr; injection Hr as H1 H2 H3; auto. }
  destruct Hve as (Hv1 & He & Hd1). subst v e d1. clear Hr.
  unfold get, getMem in Hg. rewrite Hv in Hg.
  destruct (d_mem d) as [mem|] eqn:Em; [|discriminate].
  destruct (memGet mem key _) as [[hit v] e] eqn:E1. destruct hit.
  - injection Hg as Hv1 He Hd1. subst v e d'. apply memGet_hit in E1 as [_ E1]. eauto.
  - destruct (d_frozenMem d) as [fm|] eqn:Ef.
    + destruct (memGet fm key _) as [[hit' v'] e'] eqn:E2. destruct hit'.
      * injection Hg as Hv1 He Hd1. subst v' e' d'.
        apply memGet_hit in E2 as [_ E2]. eauto.
      * discriminate.
    + discriminate.
Qed.

(** X11. On an open DB whose version holds no table and whose memtables
    hold no record for the key, [Get] returns [ErrNotFound] with an empty
    value and leaves the DB as it is. *)
Theorem Get_missing_key (d : DB) (key : bytes) (ro : ReadOptions) (m : memdb.DB) :
  ok d = None ->
  d_mem d = Some m ->
  no_record_for key m ->
  (forall fm, d_frozenMem d = Some fm -> no_record_for key fm) ->
  stVersion (d_s d) = [] ->
  Get d key ro = Ok ([], Some ErrNotFound, d).
Proof.
  intros Hok Hm Hno Hfm Hv. unfold Get. rewrite Hok.
  assert (Hg : get d key (getSeq d) ro = Ok ([], Some ErrNotFound, d)).
  { unfold get, getMem. rewrite Hm, Hv.
    pose proof (memGet_miss m key (newIKey key (getSeq d) tSeek) Hno) as H1.
    destruct (memGet m key _) as [[hit v] e]. simpl in H1. subst hit.
    destruct (d_frozenMem d) as [fm|]; [|reflexivity].
    pose proof (memGet_miss fm key (newIKey key (getSeq d) tSeek) (Hfm fm eq_refl)) as H2.
    destruct (memGet fm key _) as [[hit' v'] e']. simpl in H2. subst hit'.
    reflexivity. }
  rewrite Hg. simpl. now destruct (RHasFlag _ _).
Qed.

End ReadMore.

Lemma remove_one_snoc x l : remove_one x (l ++ [x]) ≡ₚ l.
Proof.
  induction l as [|y l IH]; simpl.
  - now rewrite Z.eqb_refl.
  - destruct (Z.eqb_spec x y) as [->|Hne].
    + now rewrite Permutation_app_comm.
    + now rewrite IH.
Qed.

(** X12. On an open DB, [NewIterator] returns an iterator at the current
    last sequence number, without error, and the snapshot it takes is
    released before it returns: the snapshots registered with the DB are
    those registered before the call, and nothing else of the DB
    changes. *)
Theorem NewIterator_leaves_no_snapshot (d : DB) (ro : ReadOptions) :
  ok d = None ->
  (NewIterator d ro).1 = dbIter (d_seq d) ro
  /\ Iterator_Error (NewIterator d ro).1 = None
  /\ d_snaps (NewIterator d ro).2 ≡ₚ d_snaps d
  /\ with_snaps (d_snaps d) (NewIterator d ro).2 = d.
Proof.
  intros Hok. unfold NewIterator. rewrite Hok. unfold newSnapshot, Snapshot_Release.
  simpl. repeat split.
  - apply remove_one_snoc.
  - now destruct d.
Qed.

(** ** More on properties *)

Lemma substring_all s : String.substring 0 (String.length s) s = s.
Proof. induction s as [|c s IH]; [reflexivity|]. simpl. now rewrite IH. Qed.

Lemma prefix_empty s : String.prefix EmptyString s = true.
Proof. now destruct s. Qed.

(** A name starts with [a ++ b] when it starts with [a] and goes on with
    [b]. *)
Lemma prefix_append a b : forall s,
  String.prefix (a ++ b) s
  = String.prefix a s
    && String.prefix b (String.substring (String.length a)
                          (String.length s - String.length a) s).
Proof.
  induction a as [|c a IH]; intros s.
  - simpl String.length. rewrite Nat.sub_0_r, substring_all, prefix_empty. reflexivity.
  - destruct s as [|c' s]; [reflexivity|].
    simpl. destruct (ascii_dec c c'); [apply IH|reflexivity].
Qed.

Lemma span_Forall f l : Forall (fun c => f c = true) (span f l).1.
Proof.
  induction l as [|c l IH]; simpl; [constructor|].
  destruct (f c) eqn:E; [|constructor].
  destruct (span f l) as [a b]. simpl in *. now constructor.
Qed.

Lemma ParseUint_nonneg ds : Forall (fun c => isDigit c = true) ds -> 0 <= ParseUint ds.
Proof.
  unfold ParseUint. intros Hd.
  assert (Hacc : forall acc, 0 <= acc ->
             0 <= foldl (fun acc c => 10 * acc + (Z.of_nat (nat_of_ascii c) - 48)) acc ds).
  { induction Hd as [|c ds Hc _ IH]; intros acc Hacc; simpl; [exact Hacc|].
    apply IH. unfold isDigit in Hc. apply andb_true_iff in Hc as [Hc _].
    apply Nat.leb_le in Hc. lia. }
  now apply Hacc.
Qed.

Lemma Scanf_level_nonneg stdin : 0 <= (Scanf_d_s stdin).1.2.
Proof.
  unfold Scanf_d_s. destruct (SkipSpace _) as [[|] l]; [|simpl; lia].
  pose proof (span_Forall isDigit l) as Hd.
  destruct (span isDigit l) as [ds rest]. simpl in Hd.
  destruct (bool_decide _); [simpl; lia|].
  destruct (2 ^ 64 <=? ParseUint ds); [simpl; lia|].
  pose proof (ParseUint_nonneg ds Hd).
  destruct (SkipSpace rest) as [[|] [|c l']]; simpl; lia.
Qed.

Section PropertyMore.
Variable kNumLevels : Z.
Variable compStats_get : DB -> nat -> Z * Z * Z.
Variable Sprintf_stats : nat -> Z -> Z -> Z -> Z -> Z -> string.
Variable Sprintf_table : tFile -> string.

Local Abbreviation GetProperty' :=
  (GetProperty kNumLevels compStats_get Sprintf_stats Sprintf_table).

Lemma levels_name name :
  String.prefix "leveldb.num-files-at-level" name
  = String.prefix prefix name
    && String.prefix "num-files-at-level"
         (String.substring (String.length prefix)
            (String.length name - String.length prefix) name).
Proof. exact (prefix_append "leveldb." "num-files-at-level" name). Qed.

(** X13. For a property name that does not start with
    leveldb.num-files-at-level, [GetProperty] consumes nothing of the
    standard input; and on an open DB a name without the prefix leveldb. is
    answered with the unknown-property error that quotes the name. *)
Theorem GetProperty_reads_stdin_for_levels_only (d : DB) (name stdin : string) :
  String.prefix "leveldb.num-files-at-level" name = false ->
  (GetProperty' d name stdin).2 = stdin
  /\ (String.prefix "leveldb." name = false -> ok d = None ->
      GetProperty' d name stdin
      = (EmptyString,
         Some (errors_New ("leveldb: GetProperty: unknown property: " +:+ name)),
         stdin)).
Proof.
  intros Hn. rewrite levels_name in Hn. unfold GetProperty. split.
  - destruct (ok d); [reflexivity|].
    destruct (String.prefix prefix name); [|reflexivity].
    apply andb_false_iff in Hn as [Hn|Hn]; [discriminate|].
    rewrite Hn. simpl.
    destruct (String.eqb _ "stats"); [reflexivity|].
    destruct (String.eqb _ "sstables"); reflexivity.
  - intros Hp ->. unfold prefix. now rewrite Hp.
Qed.

(** X14. When [GetProperty] answers a name that starts with
    leveldb.num-files-at-level without error, the answer is the decimal
    number of tables of a level between 0 and kNumLevels - 1, and that level
    is the number scanned from the standard input, the only item that the
    scan assigned. *)
Theorem GetProperty_num_files_value (d : DB) (name stdin value rest : string) :
  String.prefix "leveldb.num-files-at-level" name = true ->
  GetProperty' d name stdin = (value, None, rest) ->
  exists level, 0 <= level < kNumLevels
                /\ value = pretty (tLen level (stVersion (d_s d)))
                /\ (Scanf_d_s stdin).1 = (1, level).
Proof.
  intros Hn. rewrite levels_name in Hn. apply andb_true_iff in Hn as [Hp Hl].
  unfold GetProperty. destruct (ok d); [discriminate|].
  rewrite Hp, Hl. simpl negb. cbv iota.
  pose proof (Scanf_level_nonneg stdin) as Hnn.
  destruct (Scanf_d_s stdin) as [[n level] rest']. simpl in Hnn.
  destruct (n =? 1) eqn:En; simpl; [|discriminate].
  destruct (Z.leb_spec kNumLevels level); [discriminate|].
  intros [= <- <-]. exists level. apply Z.eqb_eq in En. subst n.
  repeat split; [exact Hnn|assumption].
Qed.

End PropertyMore.

(** ** More on approximate sizes *)

Section SizesMore.
Context `{ApproximateOffset}.

(** The sizes found so far are kept in front of the new ones. *)
Lemma approximate_sizes_acc p v ranges : forall acc,
  approximate_sizes p v ranges acc
  = new ← approximate_sizes p v ranges []; Ok (acc ++ new).
Proof.
  induction ranges as [|r ranges IH]; intros acc; simpl.
  - now rewrite app_nil_r.
  - destruct (getApproximateOffset p v (newIKey (Start r) _ _)) as [start| |];
      simpl; try reflexivity.
    destruct (getApproximateOffset p v (newIKey (Limit r) _ _)) as [limit| |];
      simpl; try reflexivity.
    rewrite (IH (acc ++ _)), (IH [_]).
    destruct (approximate_sizes p v ranges []); simpl; try reflexivity.
    now rewrite <- app_assoc.
Qed.

Lemma approximate_sizes_app p v r1 r2 : forall acc,
  approximate_sizes p v (r1 ++ r2) acc
  = acc' ← approximate_sizes p v r1 acc; approximate_sizes p v r2 acc'.
Proof.
  induction r1 as [|r r1 IH]; intros acc; simpl; [reflexivity|].
  destruct (getApproximateOffset p v (newIKey (Start r) _ _)) as [start| |];
    simpl; try reflexivity.
  destruct (getApproximateOffset p v (newIKey (Limit r) _ _)) as [limit| |];
    simpl; try reflexivity.
  apply IH.
Qed.

(** X15. [GetApproximateSizes] treats each range on its own: when it returns
    sizes for two lists of ranges, it returns for their concatenation the
    concatenation of the sizes. *)
Theorem GetApproximateSizes_app (d : DB) (r1 r2 : list Range) (s1 s2 : list Z) :
  GetApproximateSizes d r1 = Ok s1 ->
  GetApproximateSizes d r2 = Ok s2 ->
  GetApproximateSizes d (r1 ++ r2) = Ok (s1 ++ s2).
Proof.
  unfold GetApproximateSizes. destruct (ok d); simpl; [discriminate|].
  intros H1 H2. rewrite approximate_sizes_app, H1. simpl.
  rewrite approximate_sizes_acc, H2. reflexivity.
Qed.

(** X16. On an open DB, when the probes of the ranges before a given range
    succeed and a probe of that range fails (that of the start, or that of
    the limit once the start succeeded), [GetApproximateSizes] returns that
    error and no sizes, whatever ranges follow. *)
Theorem GetApproximateSizes_first_error (d : DB) (pre post : list Range)
  (r : Range) (e : error) :
  ok d = None ->
  Forall (fun r => is_Ok (probe d (Start r)) /\ is_Ok (probe d (Limit r))) pre ->
  probe d (Start r) = Err e
  \/ (is_Ok (probe d (Start r)) /\ probe d (Limit r) = Err e) ->
  GetApproximateSizes d (pre ++ r :: post) = Err e.
Proof.
  intros Hok Hpre Hr. unfold GetApproximateSizes. rewrite Hok. simpl.
  rewrite approximate_sizes_app.
  destruct (approximate_sizes_total d pre [] Hpre) as [acc ->]. simpl.
  unfold probe in Hr. destruct Hr as [->|[[start ->] ->]]; reflexivity.
Qed.

End SizesMore.

(** ** The test harnesses *)

Lemma i64_small z : - 2 ^ 63 <= z < 2 ^ 63 -> i64 z = z.
Proof.
  intros Hz. unfold i64. rewrite Z.mod_small by lia. lia.
Qed.

Lemma index_Ok {A} (l : list A) (i : Z) x :
  0 <= i -> l !! Z.to_nat i = Some x -> index l i = Ok x.
Proof.
  intros Hi Hx. unfold index.
  assert (Hlt : (Z.to_nat i < length l)%nat) by (eapply lookup_lt_Some, Hx).
  destruct (i <? 0) eqn:H0; [apply Z.ltb_lt in H0; lia|].
  destruct (Z.of_nat (length l) <=? i) eqn:H1; [apply Z.leb_le in H1; lia|].
  simpl. now rewrite Hx.
Qed.

Lemma flipb_flipb b : flipb (flipb b) = b.
Proof. destruct b; reflexivity. Qed.

Lemma clamp_bounds m offset n o n' :
  0 <= m < 2 ^ 62 -> - 2 ^ 62 <= offset <= 2 ^ 62 -> - 2 ^ 62 <= n <= 2 ^ 62 ->
  clamp m offset n = (o, n') ->
  0 <= o <= m /\ o + n' <= m /\ n' <= n.
Proof.
  intros Hm Ho Hn. unfold clamp.
  rewrite (i64_small (- offset)) by lia.
  rewrite (i64_small (m + offset)) by lia.
  destruct (offset <? 0) eqn:H0; [apply Z.ltb_lt in H0|apply Z.ltb_ge in H0].
  - destruct (m <? - offset) eqn:H1; [apply Z.ltb_lt in H1|apply Z.ltb_ge in H1].
    + destruct (m <? 0) eqn:H2; [apply Z.ltb_lt in H2; lia|].
      rewrite (i64_small (0 + n)), (i64_small (m - 0)) by lia.
      destruct (m <? 0 + n) eqn:H3; [apply Z.ltb_lt in H3|apply Z.ltb_ge in H3];
        intros [= <- <-]; lia.
    + destruct (m <? m + offset) eqn:H2; [apply Z.ltb_lt in H2; lia|].
      rewrite (i64_small (m + offset + n)), (i64_small (m - (m + offset))) by lia.
      destruct (m <? m + offset + n) eqn:H3;
        [apply Z.ltb_lt in H3|apply Z.ltb_ge in H3]; intros [= <- <-]; lia.
  - destruct (m <? offset) eqn:H2; [apply Z.ltb_lt in H2|apply Z.ltb_ge in H2].
    + rewrite (i64_small (m + n)), (i64_small (m - m)) by lia.
      destruct (m <? m + n) eqn:H3; [apply Z.ltb_lt in H3|apply Z.ltb_ge in H3];
        intros [= <- <-]; lia.
    + rewrite (i64_small (offset + n)), (i64_small (m - offset)) by lia.
      destruct (m <? offset + n) eqn:H3;
        [apply Z.ltb_lt in H3|apply Z.ltb_ge in H3]; intros [= <- <-]; lia.
Qed.

Lemma flip_range_0 o buf : flip_range o 0 buf = buf.
Proof.
  unfold flip_range. apply list_eq. intros k. rewrite list_lookup_imap.
  destruct (buf !! k); [|reflexivity]. simpl.
  destruct (decide _); [lia|reflexivity].
Qed.

Lemma length_flip_range o n buf : length (flip_range o n buf) = length buf.
Proof. unfold flip_range. apply length_imap. Qed.

Lemma lookup_flip_range o n buf k :
  flip_range o n buf !! k
  = (fun b => if decide (o <= k < o + n)%nat then flipb b else b) <$> buf !! k.
Proof. unfold flip_range. now rewrite list_lookup_imap. Qed.

Lemma flip_range_flip_range o n buf :
  flip_range o n (flip_range o n buf) = buf.
Proof.
  apply list_eq. intros k. rewrite !lookup_flip_range.
  destruct (buf !! k); [|reflexivity]. simpl.
  destruct (decide _); [|reflexivity]. now rewrite flipb_flipb.
Qed.

Lemma flip_loop_spec count : forall i offset buf,
  0 <= i -> 0 <= offset ->
  offset + i + Z.of_nat count <= Z.of_nat (length buf) ->
  Z.of_nat (length buf) < 2 ^ 62 ->
  flip_loop count i offset buf = Ok (flip_range (Z.to_nat (offset + i)) count buf).
Proof.
  induction count as [|count IH]; intros i offset buf Hi Ho Hlen Hm.
  - simpl. now rewrite flip_range_0.
  - cbn [flip_loop].
    rewrite (i64_small (offset + i)), (i64_small (i + 1)) by lia.
    destruct (lookup_lt_is_Some_2 buf (Z.to_nat (offset + i))) as [b Hb]; [lia|].
    rewrite (index_Ok _ _ b) by (lia || assumption). cbn.
    rewrite IH by (rewrite ?length_insert; lia).
    f_equal. apply list_eq. intros k. rewrite !lookup_flip_range.
    destruct (decide (k = Z.to_nat (offset + i))) as [->|Hk].
    + rewrite list_lookup_insert_eq by (eapply lookup_lt_Some, Hb).
      rewrite Hb. simpl.
      destruct (decide _); [lia|]. destruct (decide _); [reflexivity|lia].
    + rewrite list_lookup_insert_ne by congruence.
      destruct (buf !! k); [|reflexivity]. simpl.
      destruct (decide _), (decide _); (reflexivity || lia).
Qed.

(** X17. For a file of less than 2^62 bytes and an offset and a count of
    magnitude at most 2^62, [corrupt] never indexes out of range: the offset
    it ends with lies within the file (a negative offset counts from the
    end), the window of bytes it flips ends within the file, and the bytes
    written back are those read, with bit 7 flipped at exactly the positions
    of the window. *)
Theorem corrupt_buf_flips_the_clamped_window buf offset n :
  Z.of_nat (length buf) < 2 ^ 62 ->
  - 2 ^ 62 <= offset <= 2 ^ 62 -> - 2 ^ 62 <= n <= 2 ^ 62 ->
  exists o c : nat,
    (o + c <= length buf)%nat
    /\ Z.of_nat c = Z.max 0 (clamp (Z.of_nat (length buf)) offset n).2
    /\ Z.of_nat o = (clamp (Z.of_nat (length buf)) offset n).1
    /\ corrupt_buf buf offset n = Ok (flip_range o c buf)
    /\ forall k, flip_range o c buf !! k
                 = if decide (o <= k < o + c)%nat then flipb <$> buf !! k
                   else buf !! k.
Proof.
  intros Hm Ho Hn. unfold corrupt_buf.
  destruct (clamp _ offset n) as [o n'] eqn:Hc.
  apply clamp_bounds in Hc as (Hob & Hon & _); [|lia..].
  exists (Z.to_nat o), (Z.to_nat n'). simpl.
  split; [lia|]. split; [lia|]. split; [lia|]. split.
  - rewrite flip_loop_spec by lia. do 2 f_equal. lia.
  - intros k. rewrite lookup_flip_range.
    destruct (decide _); [reflexivity|]. now destruct (buf !! k).
Qed.

(** X18. Under the same bounds, [corrupt] keeps the length of the file, and
    a second call with the same offset and count restores the bytes. *)
Theorem corrupt_buf_twice_restores buf offset n buf' :
  Z.of_nat (length buf) < 2 ^ 62 ->
  - 2 ^ 62 <= offset <= 2 ^ 62 -> - 2 ^ 62 <= n <= 2 ^ 62 ->
  corrupt_buf buf offset n = Ok buf' ->
  length buf' = length buf /\ corrupt_buf buf' offset n = Ok buf.
Proof.
  intros Hm Ho Hn. unfold corrupt_buf.
  destruct (clamp _ offset n) as [o n'] eqn:Hc.
  pose proof Hc as Hc'.
  apply clamp_bounds in Hc' as (Hob & Hon & _); [|lia..].
  rewrite flip_loop_spec by lia. intros [= <-].
  rewrite length_flip_range. split; [reflexivity|].
  rewrite Hc. rewrite flip_loop_spec by (rewrite ?length_flip_range; lia).
  now rewrite flip_range_flip_range.
Qed.

Lemma newest_file_fold fs : forall acc,
  match foldl (fun file f =>
                 match file with
                 | None => Some f
                 | Some g => if Num g <? Num f then Some f else file
                 end) acc fs with
  | None => acc = None /\ fs = []
  | Some f =>
      (acc = Some f \/ f ∈ fs)
      /\ (forall g, g ∈ fs -> Num g <= Num f)
      /\ (forall a, acc = Some a -> Num a <= Num f)
  end.
Proof.
  induction fs as [|f fs IH]; intros acc.
  - simpl. destruct acc as [a|]; [|easy].
    split; [now left|]. split; [intros g Hg; inversion Hg|].
    intros ? [= <-]. lia.
  - cbn [foldl]. specialize (IH (match acc with
                                 | None => Some f
                                 | Some g => if Num g <? Num f then Some f else acc
                                 end)).
    destruct (foldl _ _ fs) as [r|].
    + destruct IH as (Hin & Hmax & Hacc). destruct acc as [a|].
      * destruct (Num a <? Num f) eqn:Hlt;
          [apply Z.ltb_lt in Hlt|apply Z.ltb_ge in Hlt].
        -- specialize (Hacc f eq_refl). split.
           { right. destruct Hin as [[= <-]|Hin]; [left|now right]. }
           split.
           { intros g [->|Hg]%elem_of_cons; [assumption|now apply Hmax]. }
           intros ? [= <-]. lia.
        -- specialize (Hacc a eq_refl). split.
           { destruct Hin as [Hin|Hin]; [now left|right; now right]. }
           split.
           { intros g [->|Hg]%elem_of_cons; [lia|now apply Hmax]. }
           intros ? [= <-]. lia.
      * specialize (Hacc f eq_refl). split.
        { right. destruct Hin as [[= <-]|Hin]; [left|now right]. }
        split.
        { intros g [->|Hg]%elem_of_cons; [assumption|now apply Hmax]. }
        intros ? [=].
    + destruct IH as [Hacc _]. destruct acc as [a|]; [|discriminate].
      destruct (Num a <? Num f); discriminate.
Qed.

(** X19. The file that [corrupt] picks is one of the files listed and none
    of them has a larger number; no file is picked only when none is
    listed. *)
Theorem newest_file_largest_number fs :
  match newest_file fs with
  | None => fs = []
  | Some f => f ∈ fs /\ forall g, g ∈ fs -> Num g <= Num f
  end.
Proof.
  unfold newest_file. pose proof (newest_file_fold fs None) as H.
  destruct (foldl _ None fs) as [f|].
  - destruct H as ([[=]|Hin] & Hmax & _). now split.
  - now destruct H.
Qed.

Section CheckMore.
Variable Sscanf_d : bytes -> Z.
Variable tval : Z -> bytes.

Lemma check_fold entries : forall c,
  Forall (fun kv => 0 <= Sscanf_d kv.1 < 2 ^ 62) entries ->
  0 <= ck_badk c -> 0 <= ck_badv c -> 0 <= ck_missed c -> 0 <= ck_good c ->
  ck_n c <= 2 ^ 62 ->
  ck_n c = ck_good c + ck_badv c + ck_missed c ->
  ck_good c + ck_badk c + ck_badv c + Z.of_nat (length entries) < 2 ^ 62 ->
  let c' := foldl (check_step Sscanf_d tval) c entries in
  ck_n c' = ck_good c' + ck_badv c' + ck_missed c'
  /\ ck_good c' + ck_badk c' + ck_badv c'
     = ck_good c + ck_badk c + ck_badv c + Z.of_nat (length entries)
  /\ 0 <= ck_good c' /\ 0 <= ck_badk c' /\ 0 <= ck_badv c' /\ 0 <= ck_missed c'.
Proof.
  induction entries as [|kv entries IH]; intros c Hk Hbk Hbv Hms Hgd Hn Hinv Hlen.
  - simpl. lia.
  - apply Forall_cons in Hk as [Hk Hks]. cbn [foldl]. cbn zeta.
    rewrite length_cons in *.
    assert (Hstep :
      let c1 := check_step Sscanf_d tval c kv in
      0 <= ck_badk c1 /\ 0 <= ck_badv c1 /\ 0 <= ck_missed c1 /\ 0 <= ck_good c1
      /\ ck_n c1 <= 2 ^ 62
      /\ ck_n c1 = ck_good c1 + ck_badv c1 + ck_missed c1
      /\ ck_good c1 + ck_badk c1 + ck_badv c1
         = ck_good c + ck_badk c + ck_badv c + 1).
    { unfold check_step. cbn zeta.
      destruct (Sscanf_d kv.1 <? ck_n c) eqn:Hlt;
        [apply Z.ltb_lt in Hlt|apply Z.ltb_ge in Hlt].
      - cbn. rewrite i64_small by lia. lia.
      - rewrite (i64_small (Sscanf_d kv.1 - ck_n c)) by lia.
        rewrite (i64_small (ck_missed c + _)) by lia.
        rewrite (i64_small (Sscanf_d kv.1 + 1)) by lia.
        destruct (negb _); cbn; rewrite i64_small by lia; lia. }
    cbn zeta in Hstep. destruct Hstep as (H1 & H2 & H3 & H4 & H5 & H6 & H7).
    specialize (IH (check_step Sscanf_d tval c kv) Hks H1 H2 H3 H4 H5 H6).
    cbn zeta in IH. destruct IH as (I1 & I2 & I3); [lia|].
    split; [assumption|]. split; [lia|assumption].
Qed.

(** X20. When the keys scan to numbers in [0, 2^62) and the iterator yields
    fewer than 2^62 entries, [check] counts each entry once, as good, as a
    bad key or as a bad value; the key expected next is the sum of the good,
    bad-value and missed counts; no counter is negative; and the harness
    reports that the good entries are not in range exactly when the good
    count is below [min] or above [max]. *)
Theorem check_accounts_for_every_entry entries min max :
  Forall (fun kv => 0 <= Sscanf_d kv.1 < 2 ^ 62) entries ->
  Z.of_nat (length entries) < 2 ^ 62 ->
  let c := (check Sscanf_d tval entries min max).1 in
  ck_good c + ck_badk c + ck_badv c = Z.of_nat (length entries)
  /\ ck_n c = ck_good c + ck_badv c + ck_missed c
  /\ 0 <= ck_good c /\ 0 <= ck_badk c /\ 0 <= ck_badv c /\ 0 <= ck_missed c
  /\ ((check Sscanf_d tval entries min max).2 = false <-> min <= ck_good c <= max).
Proof.
  intros Hk Hlen. unfold check. cbn [fst snd]. cbn zeta.
  pose proof (check_fold entries
                {| ck_n := 0; ck_badk := 0; ck_badv := 0; ck_missed := 0;
                   ck_good := 0 |} Hk) as H.
  cbn [ck_n ck_badk ck_badv ck_missed ck_good] in H. cbn zeta in H.
  destruct H as (H1 & H2 & H3); [lia..|].
  split; [lia|]. split; [assumption|].
  repeat (split; [tauto|]).
  rewrite orb_false_iff, !Z.ltb_ge. lia.
Qed.

End CheckMore.

Lemma swap_Ok {A} (i j : Z) (l : list A) :
  0 <= i < Z.of_nat (length l) -> 0 <= j < Z.of_nat (length l) ->
  exists x y,
    l !! Z.to_nat i = Some x /\ l !! Z.to_nat j = Some y
    /\ swap i j l = Ok (<[Z.to_nat j := x]> (<[Z.to_nat i := y]> l)).
Proof.
  intros Hi Hj.
  destruct (lookup_lt_is_Some_2 l (Z.to_nat i)) as [x Hx]; [lia|].
  destruct (lookup_lt_is_Some_2 l (Z.to_nat j)) as [y Hy]; [lia|].
  exists x, y. split; [assumption|]. split; [assumption|].
  unfold swap. rewrite (index_Ok l j y) by (lia || assumption). cbn.
  now rewrite (index_Ok l i x) by (lia || assumption).
Qed.

Lemma swap_Permutation {A} (i j : nat) (l : list A) x y :
  l !! i = Some x -> l !! j = Some y ->
  <[j := x]> (<[i := y]> l) ≡ₚ l.
Proof.
  intros Hx Hy.
  assert (Hi : (i < length l)%nat) by (eapply lookup_lt_Some, Hx).
  assert (Hj : (j < length l)%nat) by (eapply lookup_lt_Some, Hy).
  apply Permutation_inj. split; [now rewrite !length_insert|].
  exists (fun k => if decide (k = i) then j else if decide (k = j) then i else k).
  split.
  - intros a b. repeat destruct (decide _); congruence.
  - intros k. destruct (decide (k = j)) as [->|Hkj].
    + rewrite list_lookup_insert_eq by (rewrite length_insert; lia).
      destruct (decide (j = i)) as [->|]; [congruence|].
      destruct (decide (j = j)); congruence.
    + rewrite list_lookup_insert_ne by congruence.
      destruct (decide (k = i)) as [->|Hki].
      * rewrite list_lookup_insert_eq by lia. congruence.
      * rewrite list_lookup_insert_ne by congruence.
        destruct (decide (k = i)); [congruence|].
        destruct (decide (k = j)); congruence.
Qed.

Lemma shuffle_loop_Permutation times : forall n r1 r2 m keys values,
  (forall k, 0 <= r1 k) -> (forall k, 0 <= r2 k) ->
  m = Z.of_nat (length keys) -> length values = length keys ->
  (times = O \/ 0 < m) ->
  exists keys' values',
    shuffle_loop times n r1 r2 m keys values = Ok (keys', values')
    /\ length keys' = length keys /\ length values' = length keys
    /\ zip keys' values' ≡ₚ zip keys values.
Proof.
  induction times as [|times IH]; intros n r1 r2 m keys values H1 H2 Hm Hlen Hpos.
  - exists keys, values. now simpl.
  - destruct Hpos as [|Hpos]; [discriminate|]. cbn [shuffle_loop].
    destruct (m =? 0) eqn:H0; [apply Z.eqb_eq in H0; lia|].
    destruct (Z.rem (r1 n) m =? Z.rem (r2 n) m) eqn:Hij.
    + apply IH; auto.
    + pose proof (Z.rem_bound_pos (r1 n) m (H1 n) Hpos) as Hi.
      pose proof (Z.rem_bound_pos (r2 n) m (H2 n) Hpos) as Hj.
      destruct (swap_Ok (Z.rem (r1 n) m) (Z.rem (r2 n) m) keys)
        as (kx & ky & Hkx & Hky & ->); [lia..|].
      destruct (swap_Ok (Z.rem (r1 n) m) (Z.rem (r2 n) m) values)
        as (vx & vy & Hvx & Hvy & ->); [lia..|].
      cbn.
      edestruct (IH (S n) r1 r2 m) as (keys' & values' & -> & Hk & Hv & Hp);
        [exact H1|exact H2| | |right; exact Hpos|].
      { now rewrite !length_insert. }
      { now rewrite !length_insert. }
      exists keys', values'. split; [reflexivity|].
      rewrite !length_insert in Hk, Hv. split; [assumption|].
      split; [assumption|]. rewrite Hp.
      rewrite <- !(insert_zip_with pair).
      apply swap_Permutation.
      * rewrite lookup_zip_with, Hkx. simpl. now rewrite Hvx.
      * rewrite lookup_zip_with, Hky. simpl. now rewrite Hvy.
Qed.

Lemma copy_of_id (l : list string) : copy_of (length l) l = l.
Proof.
  unfold copy_of. rewrite firstn_all, Nat.sub_diag. apply app_nil_r.
Qed.

(** X21. With random numbers that are not negative and as many values as
    keys (fewer than 2^62), the shuffle of [stHarness.test] never panics
    (no division by zero when there is no key, no index out of range) and
    permutes keys and values together: the pairs added to the constructor
    are the pairs of the harness. *)
Theorem shuffle_keeps_the_pairs r1 r2 h_keys h_values :
  (forall k, 0 <= r1 k) -> (forall k, 0 <= r2 k) ->
  length h_values = length h_keys ->
  Z.of_nat (length h_keys) < 2 ^ 62 ->
  exists keys values,
    shuffle r1 r2 h_keys h_values = Ok (keys, values)
    /\ length keys = length h_keys /\ length values = length h_keys
    /\ zip keys values ≡ₚ zip h_keys h_values.
Proof.
  intros H1 H2 Hlen Hm. unfold shuffle. cbn zeta.
  rewrite copy_of_id.
  replace (copy_of (length h_keys) h_values) with h_values
    by (rewrite <- Hlen; symmetry; apply copy_of_id).
  apply shuffle_loop_Permutation; auto.
  rewrite i64_small by lia. lia.
Qed.

(** ** The further properties at sample states *)

Section MoreSamples.
#[local] Existing Instance BytewiseComparer.

Lemma Open_passes_recover_result_witness :
  let p := fixture.storage_bad_manifest in
  let opts := sample.options [OFCreateIfMissing] in
  let s := match newSession p opts with Ok s => s | _ => sample.fresh_session p end in
  newSession p opts = Ok s
  /\ recover s = Err (ErrCorrupted "manifest")
  /\ Open p opts = Err (ErrCorrupted "manifest").
Proof.
  intros p opts s.
  assert (Hs : newSession p opts = Ok s) by reflexivity.
  split; [exact Hs|]. split; [reflexivity|].
  apply (proj1 (Open_passes_recover_result p opts s Hs)); [reflexivity|discriminate].
Defined.

Lemma Recover_installs_readable_tables_witness :
  let p := sample.storage_two_tables in
  let opts := sample.options [] in
  let s := match Recover_session p opts with
           | Ok s => s
           | _ => sample.fresh_session p
           end in
  Recover_session p opts = Ok s
  /\ tLen 0 (stVersion s) = Z.of_nat (length (readable_tables p))
  /\ length (readable_tables p) = 2%nat.
Proof.
  intros p opts s.
  assert (Hs : Recover_session p opts = Ok s) by (vm_compute; reflexivity).
  split; [exact Hs|]. split; [|vm_compute; reflexivity].
  exact (proj2 (Recover_installs_readable_tables p opts s Hs)).
Defined.

Lemma Recover_fails_on_broken_table_witness :
  exists e, Recover fixture.storage_broken_table (sample.options []) = Err e.
Proof.
  apply Recover_fails_on_broken_table.
  eexists. split.
  - apply elem_of_cons. right. apply elem_of_cons. left. reflexivity.
  - split; [reflexivity|]. left. eexists. reflexivity.
Defined.

Lemma replay_reports_every_damage_witness :
  let file := sample.journal 1 sample.journal_torn in
  let after := match replay false 4194304 file sample.journal_torn sample.db_fresh
                       memdb.New new_sessionRecord with
               | Ok r => r
               | _ => (sample.db_fresh, memdb.New, new_sessionRecord)
               end in
  replay false 4194304 file sample.journal_torn sample.db_fresh memdb.New
    new_sessionRecord = Ok after
  /\ s_dropped (d_s after.1.1)
     = s_dropped (d_s sample.db_fresh) ++ drops file sample.journal_torn
  /\ drops file sample.journal_torn = [(1, 7)].
Proof.
  intros file after.
  assert (Hr : replay false 4194304 file sample.journal_torn sample.db_fresh memdb.New
                 new_sessionRecord = Ok (after.1.1, after.1.2, after.2))
    by (vm_compute; reflexivity).
  split; [vm_compute; reflexivity|]. split; [|vm_compute; reflexivity].
  exact (proj1 (replay_reports_every_damage false 4194304 file sample.journal_torn
                  sample.db_fresh after.1.1 memdb.New after.1.2
                  new_sessionRecord after.2 Hr)).
Defined.

Lemma replay_keeps_memtable_below_buffer_witness :
  let file := sample.journal 1 sample.journal_torn in
  let after := match replay false 4194304 file sample.journal_torn sample.db_fresh
                       memdb.New new_sessionRecord with
               | Ok r => r
               | _ => (sample.db_fresh, memdb.New, new_sessionRecord)
               end in
  replay false 4194304 file sample.journal_torn sample.db_fresh memdb.New
    new_sessionRecord = Ok after
  /\ memdb.Size after.1.2 < 4194304.
Proof.
  intros file after.
  split; [vm_compute; reflexivity|].
  apply (replay_keeps_memtable_below_buffer false 4194304 file sample.journal_torn
           sample.db_fresh after.1.1 memdb.New after.1.2 new_sessionRecord after.2).
  - lia.
  - vm_compute; reflexivity.
  - vm_compute; reflexivity.
Defined.

Lemma replay_last_sequence_witness :
  let file := sample.journal 1 sample.journal_torn in
  let after := match replay false 4194304 file sample.journal_torn sample.db_fresh
                       memdb.New new_sessionRecord with
               | Ok r => r
               | _ => (sample.db_fresh, memdb.New, new_sessionRecord)
               end in
  exists bt, batch.decode sample.batch_b = Ok bt
             /\ d_seq after.1.1 = u64 (batch.seq bt + u64 (batch.len bt)).
Proof.
  intros file after.
  apply (replay_last_sequence false 4194304 file
           [JRecord sample.batch_a; JTorn 7] [] sample.batch_b
           sample.db_fresh after.1.1 memdb.New after.1.2 new_sessionRecord after.2).
  - constructor.
  - vm_compute; reflexivity.
Defined.

Lemma Get_value_comes_from_a_value_record_witness :
  let d := fixture.db_with_value in
  Get d (B "k") sample.ro = Ok (B "v1", None, d)
  /\ exists m, (d_mem d = Some m \/ d_frozenMem d = Some m)
               /\ value_record (B "k") (B "v1") m.
Proof.
  intros d.
  assert (Hg : Get d (B "k") sample.ro = Ok (B "v1", None, d))
    by (vm_compute; reflexivity).
  split; [exact Hg|].
  exact (proj2 (Get_value_comes_from_a_value_record d d (B "k") (B "v1") sample.ro
                  eq_refl Hg)).
Defined.

Lemma Get_missing_key_witness :
  Get sample.db_fresh (B "k") sample.ro = Ok ([], Some ErrNotFound, sample.db_fresh).
Proof.
  apply (Get_missing_key sample.db_fresh (B "k") sample.ro memdb.New).
  - reflexivity.
  - reflexivity.
  - intros rkey value uk seq t Hin. now apply elem_of_nil in Hin.
  - intros fm Hfm. discriminate Hfm.
  - reflexivity.
Defined.

Lemma NewIterator_leaves_no_snapshot_witness :
  let r := NewIterator sample.db_fresh sample.ro in
  r.1 = dbIter 0 sample.ro
  /\ Iterator_Error r.1 = None
  /\ d_snaps r.2 ≡ₚ []
  /\ with_snaps [] r.2 = sample.db_fresh.
Proof.
  exact (NewIterator_leaves_no_snapshot sample.db_fresh sample.ro eq_refl).
Defined.

Lemma GetProperty_reads_stdin_for_levels_only_witness :
  let GetProperty' :=
    GetProperty 7 (fun _ _ => (0, 0, 0)) (fun _ _ _ _ _ _ => EmptyString)
      (fun _ => EmptyString) in
  (GetProperty' sample.db_one_table "leveldb.sstables" "3").2 = "3"%string.
Proof.
  exact (proj1 (GetProperty_reads_stdin_for_levels_only 7 (fun _ _ => (0, 0, 0))
                  (fun _ _ _ _ _ _ => EmptyString) (fun _ => EmptyString)
                  sample.db_one_table "leveldb.sstables" "3" eq_refl)).
Defined.

Lemma GetProperty_num_files_value_witness :
  exists level,
    0 <= level < 7
    /\ "0"%string = pretty (tLen level (stVersion (d_s sample.db_one_table)))
    /\ (Scanf_d_s "1").1 = (1, level).
Proof.
  apply (GetProperty_num_files_value 7 (fun _ _ => (0, 0, 0))
           (fun _ _ _ _ _ _ => EmptyString) (fun _ => EmptyString)
           sample.db_one_table "leveldb.num-files-at-level0" "1" "0" EmptyString).
  - reflexivity.
  - vm_compute; reflexivity.
Defined.

Lemma GetApproximateSizes_app_witness :
  GetApproximateSizes sample.db_one_table
    ([{| Start := B "a"; Limit := B "z" |}] ++ [{| Start := B "z"; Limit := B "a" |}])
  = Ok ([10] ++ [0]).
Proof.
  apply GetApproximateSizes_app; reflexivity.
Defined.

Lemma GetApproximateSizes_first_error_witness :
  @GetApproximateSizes fixture.failing_offsets sample.db_one_table
    ([{| Start := B "a"; Limit := B "z" |}]
       ++ {| Start := B "bad"; Limit := B "z" |}
       :: [{| Start := B "z"; Limit := B "a" |}])
  = Err (ErrCorrupted "table").
Proof.
  apply (@GetApproximateSizes_first_error fixture.failing_offsets).
  - reflexivity.
  - repeat constructor; eexists; reflexivity.
  - left. reflexivity.
Defined.

Lemma corrupt_buf_flips_the_clamped_window_witness :
  clamp 6 (-2) 10 = (4, 2)
  /\ corrupt_buf (B "abcdef") (-2) 10 = Ok (flip_range 4 2 (B "abcdef"))
  /\ exists o c : nat,
       (o + c <= length (B "abcdef"))%nat
       /\ Z.of_nat c = Z.max 0 (clamp (Z.of_nat (length (B "abcdef"))) (-2) 10).2
       /\ Z.of_nat o = (clamp (Z.of_nat (length (B "abcdef"))) (-2) 10).1
       /\ corrupt_buf (B "abcdef") (-2) 10 = Ok (flip_range o c (B "abcdef"))
       /\ forall k, flip_range o c (B "abcdef") !! k
                    = if decide (o <= k < o + c)%nat then flipb <$> B "abcdef" !! k
                      else B "abcdef" !! k.
Proof.
  split; [reflexivity|]. split; [vm_compute; reflexivity|].
  apply corrupt_buf_flips_the_clamped_window; [reflexivity|lia|lia].
Defined.

Lemma corrupt_buf_twice_restores_witness :
  let buf := B "abcdef" in
  let buf' := flip_range 4 2 buf in
  corrupt_buf buf (-2) 10 = Ok buf'
  /\ buf' <> buf
  /\ length buf' = length buf
  /\ corrupt_buf buf' (-2) 10 = Ok buf.
Proof.
  intros buf buf'.
  assert (Hc : corrupt_buf buf (-2) 10 = Ok buf') by (vm_compute; reflexivity).
  split; [exact Hc|]. split; [vm_compute; discriminate|].
  apply (corrupt_buf_twice_restores buf (-2) 10 buf'); [reflexivity|lia|lia|exact Hc].
Defined.

Lemma check_accounts_for_every_entry_witness :
  let entries := [(B "0", B "v"); (B "2", B "x"); (B "1", B "v")] in
  let r := check fixture.scan_digit (fun _ => B "v") entries 1 3 in
  (ck_good r.1, ck_badk r.1, ck_badv r.1, ck_missed r.1, ck_n r.1) = (1, 1, 1, 1, 3)
  /\ ck_good r.1 + ck_badk r.1 + ck_badv r.1 = Z.of_nat (length entries)
  /\ ck_n r.1 = ck_good r.1 + ck_badv r.1 + ck_missed r.1
  /\ 0 <= ck_good r.1 /\ 0 <= ck_badk r.1 /\ 0 <= ck_badv r.1 /\ 0 <= ck_missed r.1
  /\ (r.2 = false <-> 1 <= ck_good r.1 <= 3).
Proof.
  intros entries r. split; [vm_compute; reflexivity|].
  apply (check_accounts_for_every_entry fixture.scan_digit (fun _ => B "v") entries 1 3).
  - repeat constructor; vm_compute; congruence.
  - reflexivity.
Defined.

Lemma shuffle_keeps_the_pairs_witness :
  let r1 := fun n : nat => Z.of_nat n in
  let r2 := fun n : nat => Z.of_nat n * Z.of_nat n + 1 in
  shuffle r1 r2 ["a"; "b"; "c"]%string ["1"; "2"; "3"]%string
  = Ok (["c"; "a"; "b"]%string, ["3"; "1"; "2"]%string)
  /\ exists keys values,
       shuffle r1 r2 ["a"; "b"; "c"]%string ["1"; "2"; "3"]%string = Ok (keys, values)
       /\ length keys = 3%nat /\ length values = 3%nat
       /\ zip keys values ≡ₚ [("a", "1"); ("b", "2"); ("c", "3")]%string.
Proof.
  intros r1 r2. split; [vm_compute; reflexivity|].
  apply (shuffle_keeps_the_pairs r1 r2 ["a"; "b"; "c"]%string ["1"; "2"; "3"]%string).
  - intros k. unfold r1. lia.
  - intros k. unfold r2. lia.
  - reflexivity.
  - reflexivity.
Defined.

End MoreSamples.
